(** * A circular byte buffer: [ringbuffer/buffer.c]

    The buffer keeps two free-running 32-bit cursors ([head] for reading,
    [tail] for writing) over a storage area whose size is a power of two;
    a cursor is turned into a storage index by masking with [size - 1].

    The embedding follows the C text function by function.  Unsigned
    arithmetic is written on [Z] with its reduction modulo [2^32] spelled
    out, signed arithmetic that leaves the range of [int] and every access
    outside an object are undefined behaviour of the C program and show up
    as the outcome [Undef]. *)

From Stdlib.Strings Require Import Byte String.
From Stdlib Require Import ZArith Zwf List Lia Bool.
From Equations Require Import Equations.
Import ListNotations.

Local Open Scope Z_scope.

(** ** Outcomes of a C call *)

Inductive outcome (A : Type) : Type :=
| Ok (a : A)     (* the call returns *)
| Aborted        (* a failed [assert] *)
| Undef.         (* undefined behaviour *)

Arguments Ok {A} a.
Arguments Aborted {A}.
Arguments Undef {A}.

Definition bind {A B : Type} (m : outcome A) (k : A -> outcome B) : outcome B :=
  match m with
  | Ok a => k a
  | Aborted => Aborted
  | Undef => Undef
  end.

Notation "x <- m ;; k" := (bind m (fun x => k))
  (at level 61, m at next level, right associativity).
Notation "' pat <- m ;; k" := (bind m (fun x => match x with pat => k end))
  (at level 61, pat pattern, m at next level, right associativity).

(** ** Machine integers *)

Module Int.

Definition UINT_MOD : Z := 2 ^ 32.
Definition INT_MAX : Z := 2 ^ 31 - 1.
Definition INT_MIN : Z := - 2 ^ 31.

(** Reduction of a mathematical integer to [uint32_t]; also the
    conversion of an [int] to [unsigned]. *)
Definition u32 (z : Z) : Z := z mod UINT_MOD.

(** Conversion of a [uint32_t] to [int] (two's complement). *)
Definition to_int (z : Z) : Z :=
  if u32 z <=? INT_MAX then u32 z else u32 z - UINT_MOD.

(** Addition on [int]: overflow is undefined. *)
Definition int_add (a b : Z) : outcome Z :=
  if (INT_MIN <=? a + b) && (a + b <=? INT_MAX) then Ok (a + b) else Undef.

(** [1U << i] for an [int] count: a count outside [0, 32) is undefined. *)
Definition one_shl (i : Z) : outcome Z :=
  if (0 <=? i) && (i <? 32) then Ok (u32 (Z.shiftl 1 i)) else Undef.

(** The macro [min]. *)
Definition min (lth rth : Z) : Z := if lth <? rth then lth else rth.

Definition is_u32 (z : Z) : Prop := 0 <= z < UINT_MOD.

End Int.

Import Int.

(** Loops over machine integers are defined by well-founded recursion:
    downwards on a [uint32_t], upwards on an [int] below [INT_MAX].  The
    accessibility proofs are guarded so that closed calls evaluate. *)
Definition wf_guard : nat := 40.

#[local] Instance Zwf_down : WellFounded (Zwf 0) :=
  Acc_intro_generator wf_guard (Zwf_well_founded 0).
#[local] Instance Zwf_int_up : WellFounded (Zwf_up INT_MAX) :=
  Acc_intro_generator wf_guard (Zwf_up_well_founded INT_MAX).

Opaque wf_guard.

(** ** Byte arrays and the [string.h] calls *)

Module Mem.

Definition slice (l : list byte) (off n : Z) : list byte :=
  firstn (Z.to_nat n) (skipn (Z.to_nat off) l).

Definition splice (l : list byte) (off : Z) (src : list byte) : list byte :=
  firstn (Z.to_nat off) l ++ src ++ skipn (Z.to_nat off + length src) l.

(** The byte at index [z], if the object has one. *)
Definition byte_at (l : list byte) (z : Z) : option byte :=
  if z <? 0 then None else nth_error l (Z.to_nat z).

(** The [n] bytes of object [l] starting at offset [off]; reading
    past the end of the object is undefined.  A negative [n] stands for
    an [int] converted to [size_t], a count no object can hold. *)
Definition read_bytes (l : list byte) (off n : Z) : outcome (list byte) :=
  if (0 <=? off) && (0 <=? n) && (off + n <=? Z.of_nat (length l))
  then Ok (slice l off n)
  else Undef.

(** Overwrite object [l] from offset [off] with [src]. *)
Definition write_bytes (l : list byte) (off : Z) (src : list byte)
  : outcome (list byte) :=
  if (0 <=? off) && (off + Z.of_nat (length src) <=? Z.of_nat (length l))
  then Ok (splice l off src)
  else Undef.

(** [memcpy(dst + doff, src + soff, n)]; returns the new [dst]. *)
Definition memcpy (dst : list byte) (doff : Z) (src : list byte) (soff n : Z)
  : outcome (list byte) :=
  chunk <- read_bytes src soff n ;;
  write_bytes dst doff chunk.

(** Sign of the first difference, bytes compared as [unsigned char]. *)
Fixpoint compare_bytes (a b : list byte) : Z :=
  match a, b with
  | x :: a', y :: b' =>
      if Byte.eqb x y then compare_bytes a' b'
      else Z.of_N (Byte.to_N x) - Z.of_N (Byte.to_N y)
  | _, _ => 0
  end.

(** [memcmp(a + aoff, b + boff, n)]. *)
Definition memcmp (a : list byte) (aoff : Z) (b : list byte) (boff n : Z)
  : outcome Z :=
  x <- read_bytes a aoff n ;;
  y <- read_bytes b boff n ;;
  Ok (compare_bytes x y).

End Mem.

Import Mem.

(** ** The buffer *)

(** [struct ringbuffer_s].  [buf] is the content of the storage area the
    pointer of the same name refers to.  [buf_inline] records where that
    pointer points: [buffer_new] lets it point just behind the record, into
    the block that holds the record itself, while [buffer_write_atmost]
    installs a block of its own. *)
Record buffer_t : Type := mk_buffer {
  size : Z;
  tail : Z;
  head : Z;
  buf : list byte;
  buf_inline : bool
}.

Definition set_tail (r : buffer_t) (v : Z) : buffer_t :=
  mk_buffer (size r) v (head r) (buf r) (buf_inline r).
Definition set_head (r : buffer_t) (v : Z) : buffer_t :=
  mk_buffer (size r) (tail r) v (buf r) (buf_inline r).
Definition set_buf (r : buffer_t) (b : list byte) (inl : bool) : buffer_t :=
  mk_buffer (size r) (tail r) (head r) b inl.

(** [malloc]: either no block, or a block with whatever content. *)
Definition allocator : Type := Z -> option (list byte).

Definition is_power_of_two (num : Z) : bool :=
  if num <? 2 then false
  else Z.land num (u32 (num - 1)) =? 0.

(** The loop [for (; num != 0; i++) num >>= 1;] of
    [roundup_power_of_two]; returns the final [i].  [num] is unsigned, so
    [num != 0] is [0 < num]; [i] is an [int]. *)
Equations? count_shifts (num i : Z) : outcome Z by wf num (Zwf 0) :=
  count_shifts num i with Z_le_gt_dec num 0 => {
    | left _ => Ok i
    | right _ => i' <- int_add i 1 ;; count_shifts (Z.shiftr num 1) i'
  }.
Proof.
  rewrite Z.shiftr_div_pow2 by lia.
  change (2 ^ 1) with 2.
  split; [lia | apply Z.div_lt; lia].
Qed.

Definition roundup_power_of_two (num : Z) : outcome Z :=
  if num =? 0 then Ok 2
  else i <- count_shifts num 0 ;; one_shl i.

(** [buffer_new]; [Ok None] is the [NULL] result. *)
Definition buffer_new (malloc : allocator) (sz : Z) : outcome (option buffer_t) :=
  sz' <- (if is_power_of_two sz then Ok sz else roundup_power_of_two sz) ;;
  match malloc sz' with
  | None => Ok None
  | Some block => Ok (Some (mk_buffer sz' 0 0 block true))
  end.

(** [buffer_free] releases the record; nothing is left to model. *)

Definition rb_isempty (r : buffer_t) : Z :=
  if head r =? tail r then 1 else 0.

Definition rb_isfull (r : buffer_t) : Z :=
  if size r =? u32 (tail r - head r) then 1 else 0.

Definition rb_len (r : buffer_t) : Z := u32 (tail r - head r).

Definition rb_remain (r : buffer_t) : Z :=
  u32 (u32 (size r - tail r) + head r).

(** [buffer_add]: the new buffer and the returned [int]. *)
Definition buffer_add (r : buffer_t) (data : list byte) (sz : Z)
  : outcome (buffer_t * Z) :=
  if sz >? rb_remain r then Ok (r, -1)
  else
    let p := Z.land (tail r) (u32 (size r - 1)) in
    let i := min sz (u32 (size r - p)) in
    b1 <- memcpy (buf r) p data 0 i ;;
    b2 <- memcpy b1 0 data i (u32 (sz - i)) ;;
    Ok (mk_buffer (size r) (u32 (tail r + sz)) (head r) b2 (buf_inline r), 0).

(** [buffer_remove]: [data] is the caller's array; the result holds the
    new buffer, the array after the call and the returned [int]. *)
Definition buffer_remove (r : buffer_t) (data : list byte) (sz : Z)
  : outcome (buffer_t * list byte * Z) :=
  if rb_isempty r =? 0 then
    let sz := min sz (u32 (tail r - head r)) in
    let p := Z.land (head r) (u32 (size r - 1)) in
    let i := min sz (u32 (size r - p)) in
    d1 <- memcpy data 0 (buf r) p i ;;
    d2 <- memcpy d1 i (buf r) 0 (u32 (sz - i)) ;;
    Ok (set_head r (u32 (head r + sz)), d2, to_int sz)
  else Aborted.

Definition buffer_drain (r : buffer_t) (sz : Z) : buffer_t * Z :=
  let sz := if sz >? rb_len r then rb_len r else sz in
  (set_head r (u32 (head r + sz)), to_int sz).

(** One turn of the body of the loop in [buffer_search], at offset [i]:
    [Some v] when the body executes [return v], [None] when control
    reaches the end of the body. *)
Definition search_body (r : buffer_t) (sep : list byte) (seplen i : Z)
  : outcome (option Z) :=
  let pos := to_int (Z.land (u32 (head r + u32 i)) (u32 (size r - 1))) in
  let direct :=
    c <- memcmp (buf r) pos sep 0 seplen ;;
    if c =? 0 then v <- int_add i seplen ;; Ok (Some v) else Ok None in
  ps <- int_add pos seplen ;;
  if u32 ps >? size r then
    c1 <- memcmp (buf r) pos sep 0 (u32 (size r - u32 pos)) ;;
    if c1 =? 0 then
      c2 <- memcmp (buf r) 0 sep (size r - pos) (u32 (u32 ps - size r)) ;;
      if c2 =? 0 then v <- int_add i seplen ;; Ok (Some v)
      else direct
    else Ok (Some 0)
  else direct.

(** The loop [for (i = 0; i <= rb_len(r)-seplen; i++)] from offset [i] on,
    followed by the final [return 0].  [rb_len(r)-seplen] is unsigned, and
    so is the comparison; [i++] on [INT_MAX] overflows. *)
Equations? search_loop (r : buffer_t) (sep : list byte) (seplen i : Z)
  : outcome Z by wf i (Zwf_up INT_MAX) :=
  search_loop r sep seplen i
    with Z_le_gt_dec (u32 i) (u32 (rb_len r - u32 seplen)) => {
    | right _ => Ok 0
    | left _ with search_body r sep seplen i => {
      | Ok (Some v) => Ok v
      | Ok None with Z_lt_ge_dec i INT_MAX => {
        | left _ => search_loop r sep seplen (i + 1)
        | right _ => Undef }
      | Aborted => Aborted
      | Undef => Undef } }.
Proof. split; lia. Qed.

Transparent wf_guard.

Definition buffer_search (r : buffer_t) (sep : list byte) (seplen : Z)
  : outcome Z :=
  search_loop r sep seplen 0.

Definition buffer_len (r : buffer_t) : Z := rb_len r.

(** The locals [rpos] and [wpos] of [buffer_write_atmost]. *)
Definition rpos (r : buffer_t) : Z := Z.land (head r) (u32 (size r - 1)).
Definition wpos (r : buffer_t) : Z := Z.land (tail r) (u32 (size r - 1)).

(** [buffer_write_atmost]: the new buffer and the offset into its storage
    of the returned pointer.  The result of [malloc] is not checked, so a
    [NULL] reaches [memcpy]; the old storage is handed to [free], which is
    defined only for a pointer that [malloc] returned. *)
Definition buffer_write_atmost (malloc : allocator) (r : buffer_t)
  : outcome (buffer_t * Z) :=
  if wpos r <? rpos r then
    match malloc (size r) with
    | None => Undef
    | Some temp =>
        t1 <- memcpy temp 0 (buf r) (rpos r) (u32 (size r - rpos r)) ;;
        t2 <- memcpy t1 (size r - rpos r) (buf r) 0 (wpos r) ;;
        if buf_inline r then Undef
        else Ok (set_buf r t2 false, 0)
    end
  else Ok (r, rpos r).

(** ** Well-formed buffers and the bytes they hold *)

Record wf (r : buffer_t) : Prop := mk_wf {
  wf_size : is_power_of_two (size r) = true /\ is_u32 (size r);
  wf_tail : is_u32 (tail r);
  wf_head : is_u32 (head r);
  wf_len : rb_len r <= size r;
  wf_buf : Z.of_nat (length (buf r)) = size r
}.

(** Storage index of the byte at logical offset [k] from [head]. *)
Definition phys (r : buffer_t) (k : Z) : Z :=
  Z.land (u32 (head r + k)) (u32 (size r - 1)).

(** The buffered bytes, oldest first. *)
Definition contents (r : buffer_t) : list byte :=
  map (fun k => nth (Z.to_nat (phys r (Z.of_nat k))) (buf r) x00)
      (seq 0 (Z.to_nat (rb_len r))).

(** A [malloc] that always succeeds, with zeroed blocks. *)
Definition zero_malloc : allocator :=
  fun n => Some (repeat x00 (Z.to_nat n)).

Definition bytes (s : String.string) : list byte :=
  String.list_byte_of_string s.
Arguments bytes s%_string.

(** The occupancy invariant of the data model. *)
Definition invariant (r : buffer_t) : Prop := 0 <= rb_len r <= size r.

Definition is_pow2 (m : Z) : Prop := exists k, 0 <= k /\ m = 2 ^ k.

(** The calls a client can make on a buffer, and the buffer each leaves. *)
Inductive op : Type :=
| Append (data : list byte) (sz : Z)
| Remove (out : list byte) (sz : Z)
| Drain (sz : Z)
| Search (sep : list byte) (seplen : Z)
| ContiguousView (malloc : allocator).

Definition run_op (o : op) (r : buffer_t) : outcome buffer_t :=
  match o with
  | Append data sz => '(r', _) <- buffer_add r data sz ;; Ok r'
  | Remove out sz => '(r', _, _) <- buffer_remove r out sz ;; Ok r'
  | Drain sz => Ok (fst (buffer_drain r sz))
  | Search sep seplen => _ <- buffer_search r sep seplen ;; Ok r
  | ContiguousView malloc => '(r', _) <- buffer_write_atmost malloc r ;; Ok r'
  end.

(** The [uint32_t] arguments are in range. *)
Definition typed_op (o : op) : Prop :=
  match o with
  | Append _ sz | Remove _ sz | Drain sz => is_u32 sz
  | Search _ _ | ContiguousView _ => True
  end.

(** A sequence of calls, each on the buffer the one before left. *)
Fixpoint run_ops (os : list op) (r : buffer_t) : outcome buffer_t :=
  match os with
  | [] => Ok r
  | o :: os' => r' <- run_op o r ;; run_ops os' r'
  end.

(** [malloc] hands out blocks of the size asked for. *)
Definition malloc_sized (malloc : allocator) : Prop :=
  forall n block, 0 <= n -> malloc n = Some block -> Z.of_nat (length block) = n.

(** The separator [sep] occurs in the buffered bytes at logical offset [i]. *)
Definition match_at (r : buffer_t) (sep : list byte) (i : Z) : Prop :=
  slice (contents r) i (Z.of_nat (length sep)) = sep.

(** The candidate run of [seplen] bytes at logical offset [i] runs past the
    physical end of the storage. *)
Definition crosses (r : buffer_t) (seplen i : Z) : Prop :=
  size r < phys r i + seplen.

(** ** Buffers used in the examples *)

Definition zeros (n : nat) : list byte := repeat x00 n.

(** Capacity 2, after "ab" was appended and removed again. *)
Definition drained_ab : buffer_t := mk_buffer 2 2 2 (bytes "ab") true.

(** Capacity 8 with both cursors at 6, and the same buffer holding "xyabc"
    around the end of the storage. *)
Definition empty_at_6 : buffer_t := mk_buffer 8 6 6 (bytes "......" ++ zeros 2) true.
Definition wrapped_xyabc : buffer_t := mk_buffer 8 11 6 (bytes "abc...xy") true.

(** Capacity 16 holding "abcXYZdef", from the start of the storage and
    around its end. *)
Definition holding_abcXYZdef : buffer_t :=
  mk_buffer 16 9 0 (bytes "abcXYZdef" ++ zeros 7) true.
Definition wrapped_abcXYZdef : buffer_t :=
  mk_buffer 16 18 9 (bytes "ef.......abcXYZd") true.

(** Capacity 8 holding "aXYb" with "XY" itself around the end. *)
Definition wrapped_aXYb : buffer_t := mk_buffer 8 10 6 (bytes "Yb....aX") true.

(** Capacity 4, full, holding "cdef" from storage index 2 on, after
    [2^32 + 2] bytes went through: [tail] has wrapped around. *)
Definition full_wrapped_cursor : buffer_t :=
  mk_buffer 4 2 4294967294 (bytes "efcd") true.

(** Capacity 8 holding "abcdefg" from storage index 3 on, in a storage block
    of its own. *)
Definition wrapped_abcdefg : buffer_t :=
  mk_buffer 8 10 3 (bytes "fg.abcde") false.

(** Capacity 4 holding "a". *)
Definition holding_a : buffer_t := mk_buffer 4 1 0 (bytes "a" ++ zeros 3) true.

(** Capacity 8 holding "wxyz" around the end, in a storage block of its own. *)
Definition wrapped_wxyz : buffer_t := mk_buffer 8 10 6 (bytes "yz....wx") false.

(** ** Byte arrays *)

Section Bytes.

Lemma byte_at_nonneg l j : 0 <= j -> byte_at l j = nth_error l (Z.to_nat j).
Proof. intros H. unfold byte_at. destruct (Z.ltb_spec j 0); [lia | reflexivity]. Qed.

Lemma byte_at_ext l l' :
  length l = length l' ->
  (forall j, 0 <= j < Z.of_nat (length l) -> byte_at l j = byte_at l' j) ->
  l = l'.
Proof.
  intros L H. apply nth_error_ext. intros n.
  destruct (Nat.lt_ge_cases n (length l)) as [Lt | Ge].
  - specialize (H (Z.of_nat n)).
    rewrite !byte_at_nonneg, Nat2Z.id in H by lia. apply H. lia.
  - transitivity (@None byte); [| symmetry]; apply nth_error_None; lia.
Qed.

Lemma byte_at_app l l' j :
  0 <= j ->
  byte_at (l ++ l') j =
  if j <? Z.of_nat (length l) then byte_at l j
  else byte_at l' (j - Z.of_nat (length l)).
Proof.
  intros J. destruct (Z.ltb_spec j (Z.of_nat (length l))).
  - rewrite !byte_at_nonneg by lia. apply nth_error_app1. lia.
  - rewrite !byte_at_nonneg by lia. rewrite nth_error_app2 by lia.
    f_equal. lia.
Qed.

Lemma slice_all l : slice l 0 (Z.of_nat (length l)) = l.
Proof.
  unfold slice. cbn [Z.to_nat skipn]. apply firstn_all2. lia.
Qed.

Lemma length_slice l off n :
  0 <= off -> 0 <= n -> off + n <= Z.of_nat (length l) ->
  Z.of_nat (length (slice l off n)) = n.
Proof.
  intros. unfold slice. rewrite length_firstn, length_skipn. lia.
Qed.

Lemma byte_at_slice l off n j :
  0 <= off -> 0 <= j < n ->
  byte_at (slice l off n) j = byte_at l (off + j).
Proof.
  intros O J. rewrite !byte_at_nonneg by lia. unfold slice.
  rewrite nth_error_firstn.
  destruct (Nat.ltb_spec (Z.to_nat j) (Z.to_nat n)); [| lia].
  rewrite nth_error_skipn. f_equal. lia.
Qed.

Lemma length_splice l off src :
  0 <= off -> off + Z.of_nat (length src) <= Z.of_nat (length l) ->
  length (splice l off src) = length l.
Proof.
  intros. unfold splice.
  rewrite !length_app, length_firstn, length_skipn. lia.
Qed.

Lemma byte_at_splice l off src j :
  0 <= off -> off + Z.of_nat (length src) <= Z.of_nat (length l) ->
  byte_at (splice l off src) j =
  if (off <=? j) && (j <? off + Z.of_nat (length src))
  then byte_at src (j - off) else byte_at l j.
Proof.
  intros O B. unfold byte_at at 1 3.
  destruct (Z.ltb_spec j 0) as [Neg | Pos].
  - destruct (Z.leb_spec off j); [lia | reflexivity].
  - unfold splice.
    assert (LF : length (firstn (Z.to_nat off) l) = Z.to_nat off)
      by (rewrite length_firstn; lia).
    destruct (Z.leb_spec off j) as [Ge | Lt]; cbn [andb].
    + rewrite nth_error_app2 by lia. rewrite LF.
      destruct (Z.ltb_spec j (off + Z.of_nat (length src))) as [In | Out].
      * rewrite nth_error_app1 by lia.
        rewrite byte_at_nonneg by lia. f_equal. lia.
      * rewrite nth_error_app2 by lia. rewrite nth_error_skipn.
        f_equal. lia.
    + rewrite nth_error_app1 by lia. rewrite nth_error_firstn.
      destruct (Nat.ltb_spec (Z.to_nat j) (Z.to_nat off)); [reflexivity | lia].
Qed.

Lemma read_bytes_ok l off n :
  0 <= off -> 0 <= n -> off + n <= Z.of_nat (length l) ->
  read_bytes l off n = Ok (slice l off n).
Proof.
  intros. unfold read_bytes.
  destruct (Z.leb_spec 0 off); [| lia].
  destruct (Z.leb_spec 0 n); [| lia].
  destruct (Z.leb_spec (off + n) (Z.of_nat (length l))); [| lia].
  reflexivity.
Qed.

Lemma read_bytes_past_end l off n :
  Z.of_nat (length l) < off + n -> read_bytes l off n = Undef.
Proof.
  intros. unfold read_bytes.
  destruct (Z.leb_spec (off + n) (Z.of_nat (length l))); [lia |].
  rewrite andb_false_r. reflexivity.
Qed.

Lemma write_bytes_ok l off src :
  0 <= off -> off + Z.of_nat (length src) <= Z.of_nat (length l) ->
  write_bytes l off src = Ok (splice l off src).
Proof.
  intros. unfold write_bytes.
  destruct (Z.leb_spec 0 off); [| lia].
  destruct (Z.leb_spec (off + Z.of_nat (length src)) (Z.of_nat (length l)));
    [| lia].
  reflexivity.
Qed.

Lemma memcpy_ok dst doff src soff n :
  0 <= doff -> 0 <= soff -> 0 <= n ->
  soff + n <= Z.of_nat (length src) -> doff + n <= Z.of_nat (length dst) ->
  memcpy dst doff src soff n = Ok (splice dst doff (slice src soff n)).
Proof.
  intros. unfold memcpy. rewrite read_bytes_ok by lia. cbn [bind].
  apply write_bytes_ok; rewrite ?length_slice; lia.
Qed.

Lemma compare_bytes_eq a : forall b,
  length a = length b -> (compare_bytes a b = 0 <-> a = b).
Proof.
  induction a as [| x a IH]; intros [| y b] L; try discriminate.
  - split; reflexivity.
  - cbn [compare_bytes]. injection L as L.
    destruct (Byte.eqb x y) eqn:E.
    + apply byte_dec_bl in E. subst y. rewrite (IH b L).
      split; [intros -> | intros [= ->]]; reflexivity.
    + apply eqb_false in E. split.
      * intros D. exfalso. apply E.
        assert (T : to_N x = to_N y) by lia.
        pose proof (of_to_N x) as X. rewrite T, of_to_N in X.
        congruence.
      * intros [= -> _]. contradiction.
Qed.

Lemma memcmp_ok a aoff b boff n :
  0 <= aoff -> 0 <= boff -> 0 <= n ->
  aoff + n <= Z.of_nat (length a) -> boff + n <= Z.of_nat (length b) ->
  memcmp a aoff b boff n = Ok (compare_bytes (slice a aoff n) (slice b boff n)).
Proof.
  intros. unfold memcmp. rewrite !read_bytes_ok by lia. reflexivity.
Qed.

(** [memcmp] answers 0 exactly when the two ranges hold the same bytes. *)
Lemma compare_slices a aoff b boff n :
  0 <= aoff -> 0 <= boff -> 0 <= n ->
  aoff + n <= Z.of_nat (length a) -> boff + n <= Z.of_nat (length b) ->
  (compare_bytes (slice a aoff n) (slice b boff n) = 0 <->
   forall j, 0 <= j < n -> byte_at a (aoff + j) = byte_at b (boff + j)).
Proof.
  intros. rewrite compare_bytes_eq
    by (apply Nat2Z.inj; rewrite !length_slice; lia).
  split.
  - intros E j J. rewrite <- !byte_at_slice with (n := n) by lia.
    rewrite E. reflexivity.
  - intros E. apply byte_at_ext.
    + apply Nat2Z.inj; rewrite !length_slice; lia.
    + intros j J. rewrite length_slice in J by lia.
      rewrite !byte_at_slice by lia. apply E. lia.
Qed.

End Bytes.

(** ** Arithmetic of the masks *)

Section MachineArithmetic.

Lemma UINT_MOD_eq : UINT_MOD = 4294967296.
Proof. reflexivity. Qed.

Lemma INT_MAX_eq : INT_MAX = 2147483647.
Proof. reflexivity. Qed.

Lemma u32_small z : is_u32 z -> u32 z = z.
Proof. intros H. apply Z.mod_small. exact H. Qed.

Lemma u32_is_u32 z : is_u32 (u32 z).
Proof. apply Z.mod_pos_bound. reflexivity. Qed.

Lemma to_int_small z : 0 <= z <= INT_MAX -> to_int z = z.
Proof.
  intros H. unfold to_int.
  rewrite u32_small by (unfold is_u32; rewrite UINT_MOD_eq, INT_MAX_eq in *; lia).
  destruct (Z.leb_spec z INT_MAX); [reflexivity | lia].
Qed.

Lemma min_spec a b : min a b = Z.min a b.
Proof. unfold min. destruct (Z.ltb_spec a b); lia. Qed.

Lemma pow2_bounds k : 1 <= k <= 31 -> 2 <= 2 ^ k <= 2147483648.
Proof.
  intros H. split.
  - change 2 with (2 ^ 1) at 1. apply Z.pow_le_mono_r; lia.
  - change 2147483648 with (2 ^ 31). apply Z.pow_le_mono_r; lia.
Qed.

Lemma pow2_divides_UINT_MOD k : 0 <= k <= 32 -> (2 ^ k | UINT_MOD).
Proof.
  intros H. exists (2 ^ (32 - k)).
  rewrite <- Z.pow_add_r by lia.
  replace (32 - k + k) with 32 by lia. reflexivity.
Qed.

Lemma is_power_of_two_pow2 k : 1 <= k <= 31 -> is_power_of_two (2 ^ k) = true.
Proof.
  intros H. pose proof (pow2_bounds k H) as B. unfold is_power_of_two.
  destruct (Z.ltb_spec (2 ^ k) 2); [lia |].
  rewrite u32_small by (unfold is_u32; rewrite UINT_MOD_eq; lia).
  replace (2 ^ k - 1) with (Z.ones k) by (rewrite Z.ones_equiv; lia).
  rewrite Z.land_ones by lia.
  rewrite Z.mod_same by lia. reflexivity.
Qed.

Lemma is_power_of_two_inv n :
  is_u32 n -> is_power_of_two n = true -> exists k, 1 <= k <= 31 /\ n = 2 ^ k.
Proof.
  unfold is_u32, is_power_of_two. rewrite UINT_MOD_eq. intros R H.
  destruct (Z.ltb_spec n 2) as [|N2]; [discriminate |].
  rewrite u32_small in H by (unfold is_u32; rewrite UINT_MOD_eq; lia).
  apply Z.eqb_eq in H.
  assert (P : 0 < n) by lia.
  pose proof (Z.log2_spec n P) as L.
  set (k := Z.log2 n) in *.
  assert (K1 : 1 <= k) by (apply Z.log2_le_pow2; [lia | exact N2]).
  assert (K2 : k < 32).
  { apply Z.log2_lt_pow2; [lia | change (2 ^ 32) with 4294967296; lia]. }
  exists k. split; [lia |].
  destruct (Z.eq_dec n (2 ^ k)) as [|NE]; [assumption | exfalso].
  assert (L' : Z.log2 (n - 1) = k) by (apply Z.log2_unique; lia).
  assert (T : Z.testbit (Z.land n (n - 1)) k = true).
  { rewrite Z.land_spec. unfold k at 1. rewrite Z.bit_log2 by lia.
    rewrite <- L'. rewrite Z.bit_log2 by lia. reflexivity. }
  rewrite H, Z.testbit_0_l in T. discriminate.
Qed.

(** Masking with [size - 1] is reduction modulo [size]. *)
Lemma mask_mod n x :
  is_u32 n -> is_power_of_two n = true -> Z.land x (u32 (n - 1)) = x mod n.
Proof.
  intros R H. destruct (is_power_of_two_inv n R H) as (k & K & ->).
  pose proof (pow2_bounds k K).
  rewrite u32_small by (unfold is_u32; rewrite UINT_MOD_eq; lia).
  replace (2 ^ k - 1) with (Z.ones k) by (rewrite Z.ones_equiv; lia).
  apply Z.land_ones. lia.
Qed.

Lemma u32_mod n x :
  is_u32 n -> is_power_of_two n = true -> u32 x mod n = x mod n.
Proof.
  intros R H. destruct (is_power_of_two_inv n R H) as (k & K & ->).
  unfold u32. apply Z.mod_mod_divide. apply pow2_divides_UINT_MOD. lia.
Qed.

Lemma is_power_of_two_bounds n :
  is_u32 n -> is_power_of_two n = true -> 2 <= n <= 2147483648.
Proof.
  intros R H. destruct (is_power_of_two_inv n R H) as (k & K & ->).
  apply pow2_bounds. exact K.
Qed.

Lemma count_shifts_step num i :
  count_shifts num i =
  if num <=? 0 then Ok i
  else i' <- int_add i 1 ;; count_shifts (Z.shiftr num 1) i'.
Proof.
  rewrite count_shifts_equation_1.
  destruct (Z_le_gt_dec num 0) as [l | g]; simpl;
    destruct (Z.leb_spec num 0); solve [reflexivity | lia].
Qed.

Lemma count_shifts_spec num :
  0 < num -> forall i, 0 <= i -> i + Z.log2 num + 1 <= INT_MAX ->
  count_shifts num i = Ok (i + Z.log2 num + 1).
Proof.
  induction num as [num IH] using (well_founded_induction (Zwf_well_founded 0)).
  intros P i I B.
  rewrite count_shifts_step.
  destruct (Z.leb_spec num 0); [lia |].
  unfold int_add.
  pose proof (Z.log2_nonneg num) as LN.
  replace ((INT_MIN <=? i + 1) && (i + 1 <=? INT_MAX)) with true
    by (symmetry; apply andb_true_iff; unfold INT_MIN;
        split; apply Z.leb_le; lia).
  simpl.
  destruct (Z.eq_dec num 1) as [-> | N1].
  - change (Z.shiftr 1 1) with 0. rewrite count_shifts_step. simpl.
    f_equal. lia.
  - assert (L1 : 1 <= Z.log2 num) by (apply Z.log2_le_pow2; lia).
    assert (S0 : 0 < Z.shiftr num 1).
    { rewrite Z.shiftr_div_pow2 by lia. change (2 ^ 1) with 2.
      apply Z.div_str_pos. lia. }
    assert (SL : Z.log2 (Z.shiftr num 1) = Z.log2 num - 1).
    { rewrite Z.log2_shiftr by lia. lia. }
    rewrite IH.
    + f_equal. lia.
    + split; [lia |]. rewrite Z.shiftr_div_pow2 by lia.
      change (2 ^ 1) with 2. apply Z.div_lt; lia.
    + exact S0.
    + lia.
    + lia.
Qed.

Lemma roundup_power_of_two_spec n :
  1 <= n < 2 ^ 31 -> roundup_power_of_two n = Ok (2 ^ (Z.log2 n + 1)).
Proof.
  intros [N1 N2]. unfold roundup_power_of_two.
  destruct (Z.eqb_spec n 0); [lia |].
  assert (L : Z.log2 n < 31) by (apply Z.log2_lt_pow2; lia).
  pose proof (Z.log2_nonneg n) as LN.
  rewrite count_shifts_spec by (rewrite ?INT_MAX_eq; lia).
  replace (0 + Z.log2 n + 1) with (Z.log2 n + 1) by lia.
  cbn [bind]. unfold one_shl.
  destruct (Z.leb_spec 0 (Z.log2 n + 1)); [| lia].
  destruct (Z.ltb_spec (Z.log2 n + 1) 32); [| lia].
  cbn [andb]. rewrite Z.shiftl_1_l. f_equal.
  apply u32_small. pose proof (pow2_bounds (Z.log2 n + 1)).
  unfold is_u32. rewrite UINT_MOD_eq. lia.
Qed.

Lemma roundup_power_of_two_overflow n :
  2 ^ 31 <= n < 2 ^ 32 -> roundup_power_of_two n = Undef.
Proof.
  intros [N1 N2]. unfold roundup_power_of_two.
  destruct (Z.eqb_spec n 0); [lia |].
  assert (L : Z.log2 n = 31) by (apply Z.log2_unique; [lia | exact (conj N1 N2)]).
  rewrite count_shifts_spec by (rewrite ?INT_MAX_eq; lia).
  rewrite L. reflexivity.
Qed.

End MachineArithmetic.

(** ** Well-formed buffers *)

Section ModCases.

Variable n : Z.
Hypothesis n_pos : 0 < n.

Lemma mod_add_cases x j :
  0 <= j < n ->
  (x + j) mod n = if x mod n + j <? n then x mod n + j else x mod n + j - n.
Proof.
  intros J. pose proof (Z.mod_pos_bound x n n_pos) as B.
  rewrite <- Zplus_mod_idemp_l.
  destruct (Z.ltb_spec (x mod n + j) n).
  - apply Z.mod_small. lia.
  - replace ((x mod n + j) mod n) with ((x mod n + j - n + 1 * n) mod n)
      by (f_equal; lia).
    rewrite Z_mod_plus_full. apply Z.mod_small. lia.
Qed.

Lemma mod_sub_cases x j :
  0 <= j < n ->
  (j - x) mod n = if x mod n <=? j then j - x mod n else j - x mod n + n.
Proof.
  intros J. pose proof (Z.mod_pos_bound x n n_pos) as B.
  rewrite <- Zminus_mod_idemp_r.
  destruct (Z.leb_spec (x mod n) j).
  - apply Z.mod_small. lia.
  - replace ((j - x mod n) mod n) with ((j - x mod n + n + (-1) * n) mod n)
      by (f_equal; lia).
    rewrite Z_mod_plus_full. apply Z.mod_small. lia.
Qed.

End ModCases.

Section Cursors.

Variable r : buffer_t.

Lemma rb_len_is_u32 : is_u32 (rb_len r).
Proof. apply u32_is_u32. Qed.

Lemma rb_remain_invariant :
  is_u32 (size r) -> invariant r -> rb_remain r = size r - rb_len r.
Proof.
  intros S [_ L]. unfold rb_remain, rb_len, is_u32, u32 in *.
  rewrite Zplus_mod_idemp_l.
  replace (size r - tail r + head r) with (size r - (tail r - head r)) by lia.
  rewrite <- Zminus_mod_idemp_r.
  apply Z.mod_small.
  pose proof (Z.mod_pos_bound (tail r - head r) UINT_MOD eq_refl). lia.
Qed.

Lemma rb_len_advance_tail sz b :
  is_u32 (size r) -> 0 <= sz <= size r - rb_len r ->
  rb_len (mk_buffer (size r) (u32 (tail r + sz)) (head r) b (buf_inline r))
  = rb_len r + sz.
Proof.
  intros S SZ. pose proof rb_len_is_u32 as L.
  unfold rb_len, is_u32, u32 in *. cbn [tail head].
  rewrite Zminus_mod_idemp_l.
  replace (tail r + sz - head r) with (tail r - head r + sz) by lia.
  rewrite <- Zplus_mod_idemp_l. apply Z.mod_small. lia.
Qed.

Lemma rb_len_advance_head n :
  0 <= n <= rb_len r ->
  rb_len (set_head r (u32 (head r + n))) = rb_len r - n.
Proof.
  intros N. pose proof rb_len_is_u32 as L.
  unfold rb_len, is_u32, u32 in *. cbn [tail head set_head].
  rewrite Zminus_mod_idemp_r.
  replace (tail r - (head r + n)) with (tail r - head r - n) by lia.
  rewrite <- Zminus_mod_idemp_l. apply Z.mod_small. lia.
Qed.

Lemma buffer_drain_eq sz :
  buffer_drain r sz =
  (set_head r (u32 (head r + Z.min sz (rb_len r))), to_int (Z.min sz (rb_len r))).
Proof.
  unfold buffer_drain. rewrite Z.gtb_ltb.
  destruct (Z.ltb_spec (rb_len r) sz).
  - rewrite Z.min_r by lia. reflexivity.
  - rewrite Z.min_l by lia. reflexivity.
Qed.

End Cursors.

Section WellFormed.

Variable r : buffer_t.
Hypothesis W : wf r.

Lemma wf_size_bounds : 2 <= size r <= 2147483648.
Proof. destruct W as [[P R] _ _ _ _]. apply is_power_of_two_bounds; assumption. Qed.

Lemma wf_mask x : Z.land x (u32 (size r - 1)) = x mod size r.
Proof. destruct W as [[P R] _ _ _ _]. apply mask_mod; assumption. Qed.

Lemma wf_u32_mod x : u32 x mod size r = x mod size r.
Proof. destruct W as [[P R] _ _ _ _]. apply u32_mod; assumption. Qed.

Lemma phys_mod k : phys r k = (head r + k) mod size r.
Proof. unfold phys. rewrite wf_mask. apply wf_u32_mod. Qed.

Lemma phys_bounds k : 0 <= phys r k < size r.
Proof.
  rewrite phys_mod. apply Z.mod_pos_bound. pose proof wf_size_bounds. lia.
Qed.

Lemma rb_len_bounds : 0 <= rb_len r <= size r.
Proof.
  split; [| apply W]. unfold rb_len. apply u32_is_u32.
Qed.

Lemma rb_remain_eq : rb_remain r = size r - rb_len r.
Proof. apply rb_remain_invariant; [apply W | exact rb_len_bounds]. Qed.

Lemma length_contents : Z.of_nat (length (contents r)) = rb_len r.
Proof.
  unfold contents. rewrite length_map, length_seq.
  pose proof rb_len_bounds. lia.
Qed.

Lemma byte_at_contents k :
  0 <= k < rb_len r ->
  byte_at (contents r) k = byte_at (buf r) ((head r + k) mod size r).
Proof.
  intros K. pose proof (phys_bounds k) as P. rewrite <- phys_mod.
  rewrite !byte_at_nonneg by lia. unfold contents.
  rewrite nth_error_map, nth_error_seq.
  destruct (Nat.ltb_spec (Z.to_nat k) (Z.to_nat (rb_len r))); [| lia].
  cbn [option_map Nat.add]. rewrite Z2Nat.id by lia.
  symmetry. apply nth_error_nth'.
  destruct W as [_ _ _ _ B]. lia.
Qed.

End WellFormed.

(** ** [buffer_add], [buffer_remove] and [buffer_drain] *)

Ltac zcases :=
  repeat match goal with
    | |- context [?a <=? ?b] => destruct (Z.leb_spec a b)
    | |- context [?a <? ?b] => destruct (Z.ltb_spec a b)
    end; cbn [andb].

Lemma buffer_add_full r data sz :
  sz > rb_remain r -> buffer_add r data sz = Ok (r, -1).
Proof.
  intros H. unfold buffer_add. rewrite Z.gtb_ltb.
  destruct (Z.ltb_spec (rb_remain r) sz); [reflexivity | lia].
Qed.

Section Operations.

Variable r : buffer_t.
Hypothesis W : wf r.

Lemma buffer_add_ok data sz :
  0 <= sz <= rb_remain r -> sz <= Z.of_nat (length data) ->
  exists b,
    buffer_add r data sz =
      Ok (mk_buffer (size r) (u32 (tail r + sz)) (head r) b (buf_inline r), 0)
    /\ length b = length (buf r)
    /\ forall j, 0 <= j < size r ->
         byte_at b j = if (j - tail r) mod size r <? sz
                       then byte_at data ((j - tail r) mod size r)
                       else byte_at (buf r) j.
Proof.
  intros SZ D.
  pose proof (wf_size_bounds r W) as S.
  pose proof (rb_remain_eq r W) as RM.
  pose proof (rb_len_bounds r W) as L.
  pose proof (wf_buf r W) as B.
  unfold buffer_add. rewrite Z.gtb_ltb.
  destruct (Z.ltb_spec (rb_remain r) sz); [lia |].
  rewrite (wf_mask r W).
  assert (P : 0 <= tail r mod size r < size r) by (apply Z.mod_pos_bound; lia).
  set (p := tail r mod size r) in *.
  rewrite (u32_small (size r - p)), min_spec
    by (unfold is_u32; rewrite UINT_MOD_eq; lia).
  set (i := Z.min sz (size r - p)).
  assert (I : 0 <= i <= sz /\ i <= size r - p) by lia.
  rewrite (u32_small (sz - i)) by (unfold is_u32; rewrite UINT_MOD_eq; lia).
  rewrite memcpy_ok by lia. cbn [bind].
  assert (L1 : length (splice (buf r) p (slice data 0 i)) = length (buf r))
    by (apply length_splice; rewrite ?length_slice; lia).
  rewrite memcpy_ok by lia.
  eexists. split; [reflexivity |]. split.
  - rewrite length_splice; rewrite ?length_slice; lia.
  - intros j J.
    rewrite byte_at_splice by (rewrite ?length_slice; lia).
    rewrite byte_at_splice by (rewrite ?length_slice; lia).
    rewrite !length_slice by lia.
    rewrite mod_sub_cases by lia. fold p.
    zcases; try lia;
      rewrite ?byte_at_slice by lia; f_equal; lia.
Qed.

Lemma wf_after_add b sz :
  0 <= sz <= rb_remain r -> length b = length (buf r) ->
  wf (mk_buffer (size r) (u32 (tail r + sz)) (head r) b (buf_inline r)).
Proof.
  intros SZ LB. pose proof (rb_remain_eq r W) as RM.
  constructor; cbn [size tail head buf].
  - apply W.
  - apply u32_is_u32.
  - apply W.
  - rewrite rb_len_advance_tail; [lia | apply W | lia].
  - rewrite LB. apply W.
Qed.

Lemma contents_after_add b data sz :
  0 <= sz <= rb_remain r -> length b = length (buf r) ->
  Z.of_nat (length data) = sz ->
  (forall j, 0 <= j < size r ->
     byte_at b j = if (j - tail r) mod size r <? sz
                   then byte_at data ((j - tail r) mod size r)
                   else byte_at (buf r) j) ->
  contents (mk_buffer (size r) (u32 (tail r + sz)) (head r) b (buf_inline r))
  = contents r ++ data.
Proof.
  intros SZ LB LD HB.
  pose proof (wf_after_add b sz SZ LB) as W'.
  set (r' := mk_buffer _ _ _ _ _) in *.
  pose proof (rb_remain_eq r W) as RM.
  pose proof (rb_len_bounds r W) as L.
  pose proof (wf_size_bounds r W) as S.
  assert (L' : rb_len r' = rb_len r + sz)
    by (apply rb_len_advance_tail; [apply W | lia]).
  apply byte_at_ext.
  - apply Nat2Z.inj. rewrite length_app, Nat2Z.inj_add.
    rewrite !length_contents by assumption. lia.
  - intros j J. rewrite length_contents in J by assumption.
    rewrite byte_at_contents by (assumption || lia).
    cbn [head size r'].
    rewrite HB by (apply Z.mod_pos_bound; lia).
    rewrite Zminus_mod_idemp_l.
    replace (head r + j - tail r) with (j - (tail r - head r)) by lia.
    rewrite <- Zminus_mod_idemp_r.
    rewrite <- (wf_u32_mod r W (tail r - head r)).
    fold (rb_len r).
    rewrite Zminus_mod_idemp_r.
    rewrite byte_at_app, length_contents by (assumption || lia).
    destruct (Z.ltb_spec j (rb_len r)) as [Old | New].
    + replace ((j - rb_len r) mod size r) with (j - rb_len r + size r).
      * destruct (Z.ltb_spec (j - rb_len r + size r) sz); [lia |].
        symmetry. apply byte_at_contents; [assumption | lia].
      * symmetry.
        replace (j - rb_len r) with (j - rb_len r + size r + (-1) * size r)
          at 1 by lia.
        rewrite Z_mod_plus_full.
        apply Z.mod_small. lia.
    + rewrite Z.mod_small by lia.
      destruct (Z.ltb_spec (j - rb_len r) sz); [reflexivity | lia].
Qed.

Lemma buffer_remove_ok out sz :
  head r <> tail r -> 0 <= sz ->
  Z.min sz (rb_len r) <= Z.of_nat (length out) ->
  exists out',
    buffer_remove r out sz =
      Ok (set_head r (u32 (head r + Z.min sz (rb_len r))), out',
          to_int (Z.min sz (rb_len r)))
    /\ length out' = length out
    /\ forall j, 0 <= j ->
         byte_at out' j = if j <? Z.min sz (rb_len r)
                          then byte_at (contents r) j
                          else byte_at out j.
Proof.
  intros NE SZ O.
  pose proof (wf_size_bounds r W) as S.
  pose proof (rb_len_bounds r W) as L.
  pose proof (wf_buf r W) as B.
  unfold buffer_remove, rb_isempty.
  destruct (Z.eqb_spec (head r) (tail r)) as [| _]; [contradiction |].
  cbn [Z.eqb]. cbv zeta. fold (rb_len r). rewrite !(min_spec sz).
  set (n := Z.min sz (rb_len r)) in *.
  rewrite (wf_mask r W).
  assert (P : 0 <= head r mod size r < size r) by (apply Z.mod_pos_bound; lia).
  set (p := head r mod size r) in *.
  rewrite (u32_small (size r - p)), min_spec
    by (unfold is_u32; rewrite UINT_MOD_eq; lia).
  set (i := Z.min n (size r - p)).
  assert (I : 0 <= i <= n /\ i <= size r - p) by lia.
  rewrite (u32_small (n - i)) by (unfold is_u32; rewrite UINT_MOD_eq; lia).
  rewrite memcpy_ok by lia. cbn [bind].
  assert (L1 : length (splice out 0 (slice (buf r) p i)) = length out)
    by (apply length_splice; rewrite ?length_slice; lia).
  rewrite memcpy_ok by lia.
  eexists. split; [reflexivity |]. split.
  - rewrite length_splice; rewrite ?length_slice; lia.
  - intros j J.
    rewrite byte_at_splice by (rewrite ?length_slice; lia).
    rewrite byte_at_splice by (rewrite ?length_slice; lia).
    rewrite !length_slice by lia.
    destruct (Z.ltb_spec j n) as [In | Out].
    + rewrite byte_at_contents by (assumption || lia).
      rewrite mod_add_cases by lia. fold p.
      zcases; try lia;
        rewrite ?byte_at_slice by lia; f_equal; lia.
    + zcases; try lia; reflexivity.
Qed.

Lemma wf_after_advance n :
  0 <= n <= rb_len r -> wf (set_head r (u32 (head r + n))).
Proof.
  intros N. constructor; cbn [size tail head buf set_head]; try apply W.
  - apply u32_is_u32.
  - change (mk_buffer (size r) (tail r) (u32 (head r + n)) (buf r) (buf_inline r))
      with (set_head r (u32 (head r + n))).
    rewrite rb_len_advance_head by lia.
    pose proof (rb_len_bounds r W). lia.
Qed.

End Operations.

(** ** [buffer_search] *)

Lemma search_loop_step r sep seplen i :
  search_loop r sep seplen i =
  if u32 i <=? u32 (rb_len r - u32 seplen) then
    match search_body r sep seplen i with
    | Ok (Some v) => Ok v
    | Ok None => if i <? INT_MAX then search_loop r sep seplen (i + 1) else Undef
    | Aborted => Aborted
    | Undef => Undef
    end
  else Ok 0.
Proof.
  rewrite search_loop_equation_1.
  destruct (Z_le_gt_dec (u32 i) (u32 (rb_len r - u32 seplen))) as [l | g];
    cbn -[INT_MAX];
    destruct (Z.leb_spec (u32 i) (u32 (rb_len r - u32 seplen)));
    try lia; try reflexivity.
  destruct (search_body r sep seplen i) as [[v |] | |];
    cbn -[INT_MAX]; try reflexivity.
  destruct (Z_lt_ge_dec i INT_MAX); cbn -[INT_MAX];
    destruct (Z.ltb_spec i INT_MAX); solve [reflexivity | lia].
Qed.

Section Search.

Variable r : buffer_t.
Variable sep : list byte.
Variable seplen : Z.
Hypothesis W : wf r.
Hypothesis small : size r <= 2 ^ 30.
Hypothesis sep_length : Z.of_nat (length sep) = seplen.
Hypothesis sep_fits : 1 <= seplen <= rb_len r.

Local Notation "'bound'" := (rb_len r - seplen).

Lemma search_bound : u32 (rb_len r - u32 seplen) = bound.
Proof.
  pose proof (rb_len_bounds r W). change (2 ^ 30) with 1073741824 in small.
  rewrite (u32_small seplen) by (unfold is_u32; rewrite UINT_MOD_eq; lia).
  apply u32_small. unfold is_u32. rewrite UINT_MOD_eq. lia.
Qed.

Lemma search_pos i :
  0 <= i <= bound ->
  to_int (Z.land (u32 (head r + u32 i)) (u32 (size r - 1))) = phys r i.
Proof.
  intros I. pose proof (rb_len_bounds r W).
  change (2 ^ 30) with 1073741824 in small.
  rewrite (u32_small i) by (unfold is_u32 in *; rewrite UINT_MOD_eq; lia).
  fold (phys r i). pose proof (phys_bounds r W i).
  apply to_int_small. rewrite INT_MAX_eq. lia.
Qed.

Lemma match_at_bytes i :
  0 <= i <= bound ->
  match_at r sep i <->
  forall k, 0 <= k < seplen ->
    byte_at (buf r) ((head r + i + k) mod size r) = byte_at sep k.
Proof.
  intros I. unfold match_at in *. rewrite sep_length.
  pose proof (length_contents r W) as LC. split.
  - intros E k K. rewrite <- E.
    rewrite byte_at_slice by lia.
    rewrite byte_at_contents by (assumption || lia).
    f_equal. f_equal. lia.
  - intros E. apply byte_at_ext.
    + apply Nat2Z.inj. rewrite length_slice by lia. lia.
    + intros k K. rewrite length_slice in K by lia.
      rewrite byte_at_slice by lia.
      rewrite byte_at_contents by (assumption || lia).
      rewrite <- E by lia. f_equal. f_equal. lia.
Qed.

Lemma int_add_small a b :
  -2147483648 <= a + b <= 2147483647 -> int_add a b = Ok (a + b).
Proof.
  intros A. unfold int_add, INT_MIN.
  rewrite INT_MAX_eq. change (- 2 ^ 31) with (-2147483648).
  zcases; solve [reflexivity | lia].
Qed.

(** A candidate that does not cross the end of the storage is settled by
    the single comparison. *)
Lemma search_body_direct i :
  0 <= i <= bound -> ~ crosses r seplen i ->
  search_body r sep seplen i =
  if compare_bytes (slice (buf r) (phys r i) seplen) (slice sep 0 seplen) =? 0
  then Ok (Some (i + seplen)) else Ok None.
Proof.
  intros I NC. unfold crosses in NC.
  pose proof (rb_len_bounds r W). pose proof (phys_bounds r W i) as P.
  pose proof (wf_buf r W) as B. pose proof small as S.
  change (2 ^ 30) with 1073741824 in S.
  unfold search_body. rewrite (search_pos i I). cbv zeta.
  rewrite (int_add_small (phys r i) seplen) by lia.
  cbn [bind].
  rewrite (u32_small (phys r i + seplen))
    by (unfold is_u32; rewrite UINT_MOD_eq; lia).
  rewrite Z.gtb_ltb.
  destruct (Z.ltb_spec (size r) (phys r i + seplen)); [lia |].
  rewrite memcmp_ok by lia. cbn [bind].
  destruct (_ =? 0); [| reflexivity].
  rewrite int_add_small by lia.
  reflexivity.
Qed.

Lemma direct_compare_match i :
  0 <= i <= bound -> ~ crosses r seplen i ->
  compare_bytes (slice (buf r) (phys r i) seplen) (slice sep 0 seplen) = 0
  <-> match_at r sep i.
Proof.
  intros I NC. unfold crosses in NC.
  pose proof (phys_bounds r W i) as P. pose proof (wf_buf r W) as B.
  pose proof (wf_size_bounds r W) as S.
  rewrite compare_slices by lia. rewrite (match_at_bytes i I).
  rewrite phys_mod in * by assumption.
  split; intros E k K; specialize (E k K).
  - rewrite mod_add_cases by lia.
    destruct (Z.ltb_spec ((head r + i) mod size r + k) (size r)); [| lia].
    exact E.
  - rewrite mod_add_cases in E by lia.
    destruct (Z.ltb_spec ((head r + i) mod size r + k) (size r)); [| lia].
    exact E.
Qed.

(** A candidate that crosses the end of the storage: the part up to the
    end is compared first and a difference there ends the whole search;
    when only the wrapped part differs, control falls into the single
    comparison, which reads past the end of the storage. *)
Lemma search_body_wrap i :
  0 <= i <= bound -> crosses r seplen i ->
  search_body r sep seplen i =
  if compare_bytes (slice (buf r) (phys r i) (size r - phys r i))
                   (slice sep 0 (size r - phys r i)) =? 0
  then
    if compare_bytes (slice (buf r) 0 (phys r i + seplen - size r))
                     (slice sep (size r - phys r i)
                                (phys r i + seplen - size r)) =? 0
    then Ok (Some (i + seplen))
    else Undef
  else Ok (Some 0).
Proof.
  intros I C. unfold crosses in C.
  pose proof (rb_len_bounds r W). pose proof (phys_bounds r W i) as P.
  pose proof (wf_buf r W) as B. pose proof small as S.
  change (2 ^ 30) with 1073741824 in S.
  unfold search_body. rewrite (search_pos i I). cbv zeta.
  rewrite (int_add_small (phys r i) seplen) by lia.
  cbn [bind].
  rewrite (u32_small (phys r i + seplen))
    by (unfold is_u32; rewrite UINT_MOD_eq; lia).
  rewrite Z.gtb_ltb.
  destruct (Z.ltb_spec (size r) (phys r i + seplen)); [| lia].
  rewrite (u32_small (phys r i))
    by (unfold is_u32; rewrite UINT_MOD_eq; lia).
  rewrite (u32_small (size r - phys r i))
    by (unfold is_u32; rewrite UINT_MOD_eq; lia).
  rewrite (u32_small (phys r i + seplen - size r))
    by (unfold is_u32; rewrite UINT_MOD_eq; lia).
  rewrite memcmp_ok by lia. cbn [bind].
  destruct (_ =? 0); [| reflexivity].
  rewrite memcmp_ok by lia. cbn [bind].
  destruct (_ =? 0).
  - rewrite int_add_small by lia. reflexivity.
  - unfold memcmp. rewrite read_bytes_past_end by lia. reflexivity.
Qed.

Lemma wrap_compare_match i :
  0 <= i <= bound -> crosses r seplen i ->
  compare_bytes (slice (buf r) (phys r i) (size r - phys r i))
                (slice sep 0 (size r - phys r i)) = 0
  /\ compare_bytes (slice (buf r) 0 (phys r i + seplen - size r))
                   (slice sep (size r - phys r i)
                              (phys r i + seplen - size r)) = 0
  <-> match_at r sep i.
Proof.
  intros I C. unfold crosses in C.
  pose proof (phys_bounds r W i) as P. pose proof (wf_buf r W) as B.
  pose proof (wf_size_bounds r W) as S. pose proof (rb_len_bounds r W).
  rewrite !compare_slices by lia. rewrite (match_at_bytes i I).
  rewrite phys_mod in * by assumption.
  set (pos := (head r + i) mod size r) in *.
  split.
  - intros [E1 E2] k K. rewrite mod_add_cases by lia. fold pos.
    destruct (Z.ltb_spec (pos + k) (size r)).
    + rewrite E1 by lia. f_equal.
    + replace (pos + k - size r) with (0 + (k - (size r - pos))) by lia.
      rewrite E2 by lia. f_equal. lia.
  - intros E. split; intros k K.
    + specialize (E k). rewrite mod_add_cases in E by lia. fold pos in E.
      destruct (Z.ltb_spec (pos + k) (size r)); [| lia].
      apply E. lia.
    + specialize (E (size r - pos + k)).
      rewrite mod_add_cases in E by lia. fold pos in E.
      destruct (Z.ltb_spec (pos + (size r - pos + k)) (size r)); [lia |].
      replace (pos + (size r - pos + k) - size r) with (0 + k) in E by lia.
      apply E. lia.
Qed.

Lemma search_loop_cond i :
  0 <= i <= bound + 1 ->
  (u32 i <=? u32 (rb_len r - u32 seplen)) = (i <=? bound).
Proof.
  intros I. rewrite search_bound. pose proof (rb_len_bounds r W).
  change (2 ^ 30) with 1073741824 in small.
  rewrite (u32_small i)
    by (unfold is_u32 in *; rewrite UINT_MOD_eq; lia).
  reflexivity.
Qed.

Lemma search_loop_end : search_loop r sep seplen (bound + 1) = Ok 0.
Proof.
  rewrite search_loop_step, search_loop_cond by lia.
  destruct (Z.leb_spec (bound + 1) bound); [lia | reflexivity].
Qed.

Lemma search_loop_hit i :
  0 <= i <= bound -> match_at r sep i ->
  search_loop r sep seplen i = Ok (i + seplen).
Proof.
  intros I M. rewrite search_loop_step, search_loop_cond by lia.
  destruct (Z.leb_spec i bound); [| lia].
  destruct (Z_lt_ge_dec (size r) (phys r i + seplen)) as [C | NC].
  - rewrite (search_body_wrap i I C).
    apply (wrap_compare_match i I C) in M. destruct M as [-> ->].
    reflexivity.
  - assert (NC' : ~ crosses r seplen i) by (unfold crosses; lia).
    rewrite (search_body_direct i I NC').
    apply (direct_compare_match i I NC') in M. rewrite M. reflexivity.
Qed.

Lemma search_loop_miss i :
  0 <= i <= bound -> ~ match_at r sep i -> ~ crosses r seplen i ->
  search_loop r sep seplen i = search_loop r sep seplen (i + 1).
Proof.
  intros I M NC.
  rewrite (search_loop_step r sep seplen i), search_loop_cond by lia.
  destruct (Z.leb_spec i bound); [| lia].
  rewrite (search_body_direct i I NC).
  destruct (Z.eqb_spec
              (compare_bytes (slice (buf r) (phys r i) seplen)
                             (slice sep 0 seplen)) 0) as [E | _].
  - apply (direct_compare_match i I NC) in E. contradiction.
  - pose proof (rb_len_bounds r W).
    change (2 ^ 30) with 1073741824 in small.
    destruct (Z.ltb_spec i INT_MAX);
      [reflexivity | rewrite INT_MAX_eq in *; lia].
Qed.

Lemma search_loop_skip n : forall i,
  0 <= i -> i + Z.of_nat n <= bound + 1 ->
  (forall j, i <= j < i + Z.of_nat n ->
     ~ match_at r sep j /\ ~ crosses r seplen j) ->
  search_loop r sep seplen i = search_loop r sep seplen (i + Z.of_nat n).
Proof.
  induction n as [| n IH]; intros i I B H.
  - f_equal. lia.
  - destruct (H i) as [M NC]; [lia |].
    rewrite search_loop_miss by (assumption || lia).
    rewrite IH.
    + f_equal. lia.
    + lia.
    + lia.
    + intros j J. apply H. lia.
Qed.

(** The first occurrence is reported when no earlier candidate crosses
    the end of the storage. *)
Lemma search_first_match i :
  0 <= i <= bound -> match_at r sep i ->
  (forall j, 0 <= j < i -> ~ match_at r sep j /\ ~ crosses r seplen j) ->
  buffer_search r sep seplen = Ok (i + seplen).
Proof.
  intros I M H. unfold buffer_search.
  rewrite (search_loop_skip (Z.to_nat i) 0) by (rewrite ?Z2Nat.id; lia || (intros; apply H; lia)).
  rewrite Z2Nat.id by lia. apply search_loop_hit; assumption.
Qed.

Lemma search_no_match :
  (forall j, 0 <= j <= bound -> ~ match_at r sep j /\ ~ crosses r seplen j) ->
  buffer_search r sep seplen = Ok 0.
Proof.
  intros H. unfold buffer_search.
  pose proof (rb_len_bounds r W).
  rewrite (search_loop_skip (Z.to_nat (bound + 1)) 0)
    by (rewrite ?Z2Nat.id; lia || (intros; apply H; lia)).
  rewrite Z2Nat.id by lia. apply search_loop_end.
Qed.

End Search.

(** ** Capacity normalisation *)

Section Capacity.

Lemma is_pow2_above n m :
  0 < n -> is_pow2 m -> n < m -> 2 ^ (Z.log2 n + 1) <= m.
Proof.
  intros N (k & K & ->) L.
  apply Z.pow_le_mono_r; [lia |].
  pose proof (Z.log2_spec n N) as [Lo _].
  assert (Z.log2 n < k); [| lia].
  apply (Z.pow_lt_mono_r_iff 2); lia.
Qed.

Lemma is_pow2_is_power_of_two n :
  is_pow2 n -> 2 <= n <= 2 ^ 31 -> is_power_of_two n = true.
Proof.
  intros (k & K & ->) [Lo Hi]. apply is_power_of_two_pow2. split.
  - apply (Z.pow_le_mono_r_iff 2); [lia | lia | exact Lo].
  - apply (Z.pow_le_mono_r_iff 2); [lia | lia | exact Hi].
Qed.

Lemma buffer_new_eq malloc sz m :
  (if is_power_of_two sz then Ok sz else roundup_power_of_two sz) = Ok m ->
  buffer_new malloc sz =
  Ok (option_map (fun block => mk_buffer m 0 0 block true) (malloc m)).
Proof.
  intros E. unfold buffer_new. rewrite E. cbn [bind].
  destruct (malloc m); reflexivity.
Qed.

Lemma normalised_capacity sz :
  0 <= sz <= 2 ^ 31 ->
  exists m,
    (if is_power_of_two sz then Ok sz else roundup_power_of_two sz) = Ok m
    /\ is_pow2 m /\ 2 <= m /\ sz <= m
    /\ (forall m', is_pow2 m' -> 2 <= m' -> sz <= m' -> m <= m')
    /\ (is_pow2 sz -> 2 <= sz -> m = sz).
Proof.
  intros R. destruct (is_power_of_two sz) eqn:P.
  - assert (U : is_u32 sz) by (unfold is_u32; rewrite UINT_MOD_eq; lia).
    destruct (is_power_of_two_inv sz U P) as (k & K & E).
    pose proof (pow2_bounds k K).
    exists sz. repeat split; try lia.
    exists k. split; [lia | exact E].
  - assert (N : sz < 2 ^ 31).
    { destruct (Z.eq_dec sz (2 ^ 31)) as [-> |]; [discriminate | lia]. }
    destruct (Z.eq_dec sz 0) as [-> | NZ].
    + exists 2.
      split; [reflexivity |].
      split; [exists 1; split; [lia | reflexivity] |].
      repeat split; lia.
    + assert (S1 : 1 <= sz < 2 ^ 31) by lia.
      pose proof (Z.log2_nonneg sz) as LN.
      pose proof (Z.log2_spec sz ltac:(lia)) as [Lo Hi].
      assert (L31 : Z.log2 sz < 31) by (apply Z.log2_lt_pow2; lia).
      pose proof (pow2_bounds (Z.log2 sz + 1) ltac:(lia)) as PB.
      exists (2 ^ (Z.log2 sz + 1)).
      split; [apply roundup_power_of_two_spec; exact S1 |].
      split; [exists (Z.log2 sz + 1); split; [lia | reflexivity] |].
      split; [lia |].
      split; [unfold Z.succ in Hi; lia |].
      split.
      * intros m' PM M2 LE.
        destruct (Z.eq_dec sz 1) as [-> | N1]; [simpl; lia |].
        apply is_pow2_above; [lia | exact PM |].
        destruct (Z.eq_dec m' sz) as [-> |]; [| lia].
        rewrite is_pow2_is_power_of_two in P by (assumption || lia).
        discriminate.
      * intros PS S2.
        rewrite is_pow2_is_power_of_two in P by (assumption || lia).
        discriminate.
Qed.

End Capacity.

(** ** The occupancy invariant *)

Section Invariant.

Variable r : buffer_t.
Hypothesis size_u32 : is_u32 (size r).
Hypothesis inv : invariant r.

Lemma invariant_add data sz r' v :
  is_u32 sz -> buffer_add r data sz = Ok (r', v) ->
  invariant r' /\ size r' = size r.
Proof.
  intros SZ. unfold buffer_add. rewrite Z.gtb_ltb.
  destruct (Z.ltb_spec (rb_remain r) sz) as [Full | Fits].
  - intros [= <- _]. split; [exact inv | reflexivity].
  - destruct (memcpy _ _ _ _ _) as [b1 | |]; cbn [bind]; try discriminate.
    destruct (memcpy _ _ _ _ _) as [b2 | |]; cbn [bind]; try discriminate.
    intros [= <- _]. split; [| reflexivity].
    rewrite rb_remain_invariant in Fits by assumption.
    unfold invariant. rewrite rb_len_advance_tail; cbn [size].
    + destruct inv, SZ. lia.
    + assumption.
    + destruct inv, SZ. lia.
Qed.

Lemma invariant_advance n :
  0 <= n <= rb_len r -> invariant (set_head r (u32 (head r + n))).
Proof.
  intros N. unfold invariant. rewrite rb_len_advance_head by assumption.
  cbn [size set_head]. destruct inv. lia.
Qed.

Lemma invariant_remove out sz r' out' v :
  is_u32 sz -> buffer_remove r out sz = Ok (r', out', v) ->
  invariant r' /\ size r' = size r.
Proof.
  intros SZ. unfold buffer_remove.
  destruct (rb_isempty r =? 0); [| discriminate]. cbv zeta.
  destruct (memcpy _ _ _ _ _) as [d1 | |]; cbn [bind]; try discriminate.
  destruct (memcpy _ _ _ _ _) as [d2 | |]; cbn [bind]; try discriminate.
  intros [= <- _ _]. split; [| reflexivity].
  fold (rb_len r). rewrite min_spec.
  apply invariant_advance. destruct inv, SZ. lia.
Qed.

Lemma invariant_drain sz :
  is_u32 sz ->
  invariant (fst (buffer_drain r sz)) /\ size (fst (buffer_drain r sz)) = size r.
Proof.
  intros SZ. rewrite buffer_drain_eq. cbn [fst]. split; [| reflexivity].
  apply invariant_advance. destruct inv, SZ. lia.
Qed.

Lemma write_atmost_frame malloc r' p :
  buffer_write_atmost malloc r = Ok (r', p) ->
  head r' = head r /\ tail r' = tail r /\ size r' = size r.
Proof.
  unfold buffer_write_atmost.
  destruct (wpos r <? rpos r).
  - destruct (malloc (size r)) as [temp |]; [| discriminate].
    destruct (memcpy _ _ _ _ _) as [t1 | |]; cbn [bind]; try discriminate.
    destruct (memcpy _ _ _ _ _) as [t2 | |]; cbn [bind]; try discriminate.
    destruct (buf_inline r); [discriminate |].
    intros [= <- _]. repeat split.
  - intros [= <- _]. repeat split.
Qed.

Lemma invariant_step o r' :
  typed_op o -> run_op o r = Ok r' -> invariant r' /\ size r' = size r.
Proof.
  destruct o as [data sz | out sz | sz | sep seplen | malloc];
    cbn [typed_op run_op]; intros T.
  - destruct (buffer_add r data sz) as [[r1 v] | |] eqn:E;
      cbn [bind]; try discriminate.
    intros [= <-]. exact (invariant_add data sz r1 v T E).
  - destruct (buffer_remove r out sz) as [[[r1 o1] v] | |] eqn:E;
      cbn [bind]; try discriminate.
    intros [= <-]. exact (invariant_remove out sz r1 o1 v T E).
  - intros [= <-]. apply invariant_drain. exact T.
  - destruct (buffer_search r sep seplen); cbn [bind]; try discriminate.
    intros [= <-]. split; [exact inv | reflexivity].
  - destruct (buffer_write_atmost malloc r) as [[r1 p] | |] eqn:E;
      cbn [bind]; try discriminate.
    intros [= <-].
    destruct (write_atmost_frame malloc r1 p E) as (H & T' & S).
    split; [| exact S].
    unfold invariant, rb_len in *. rewrite H, T', S. exact inv.
Qed.

End Invariant.

Lemma invariant_new malloc sz r :
  is_u32 sz -> buffer_new malloc sz = Ok (Some r) ->
  invariant r /\ is_u32 (size r).
Proof.
  intros U. unfold buffer_new.
  assert (N : forall m, (if is_power_of_two sz then Ok sz
                         else roundup_power_of_two sz) = Ok m -> is_u32 m).
  { intros m. destruct (is_power_of_two sz); [intros [= <-]; exact U |].
    unfold roundup_power_of_two, one_shl.
    destruct (sz =? 0);
      [intros [= <-]; unfold is_u32; rewrite UINT_MOD_eq; lia |].
    destruct (count_shifts sz 0) as [i | |]; cbn [bind]; try discriminate.
    destruct ((0 <=? i) && (i <? 32)); [| discriminate].
    intros [= <-]. apply u32_is_u32. }
  destruct (if is_power_of_two sz then Ok sz else roundup_power_of_two sz)
    as [m | |] eqn:E; cbn [bind]; try discriminate.
  destruct (malloc m); [| discriminate].
  intros [= <-]. unfold invariant, rb_len. cbn [size tail head].
  pose proof (N m eq_refl) as M. split; [| exact M].
  change (u32 (0 - 0)) with 0. destruct M. lia.
Qed.

(** ** [buffer_write_atmost] *)

Lemma write_atmost_relayout malloc r temp :
  wf r -> wpos r < rpos r ->
  malloc (size r) = Some temp -> Z.of_nat (length temp) = size r ->
  buf_inline r = false ->
  buffer_write_atmost malloc r =
  Ok (set_buf r
        (splice (splice temp 0 (slice (buf r) (rpos r) (size r - rpos r)))
                (size r - rpos r) (slice (buf r) 0 (wpos r)))
        false, 0).
Proof.
  intros W Lt M LT NI.
  pose proof (wf_size_bounds r W) as S. pose proof (wf_buf r W) as B.
  unfold buffer_write_atmost. rewrite M, NI.
  destruct (Z.ltb_spec (wpos r) (rpos r)); [| lia].
  assert (R : 0 <= rpos r < size r)
    by (unfold rpos; rewrite (wf_mask r W); apply Z.mod_pos_bound; lia).
  assert (Wp : 0 <= wpos r < size r)
    by (unfold wpos; rewrite (wf_mask r W); apply Z.mod_pos_bound; lia).
  rewrite (u32_small (size r - rpos r))
    by (unfold is_u32; rewrite UINT_MOD_eq; lia).
  rewrite memcpy_ok by lia. cbn [bind].
  rewrite memcpy_ok; [reflexivity | lia | lia | lia | lia |].
  rewrite length_splice; rewrite ?length_slice; lia.
Qed.

(** ** The claims *)

Ltac by_computation := vm_compute; solve [reflexivity | discriminate | intuition discriminate].

Ltac wf_by_computation :=
  constructor; unfold is_u32; repeat split; by_computation.

(** C1.  A separator longer than the buffered data does not make
    [buffer_search] return 0 at once: the unsigned bound [rb_len(r) - seplen]
    wraps around and the loop is entered.  In the capacity-2 buffer from
    which "ab" was appended and removed, which holds no byte, the search for
    "ab" finds the stale bytes and returns 2, and the search for "abc" reads
    past the end of the storage. *)
Theorem search_longer_than_len_enters_loop :
  buffer_new zero_malloc 2 = Ok (Some (mk_buffer 2 0 0 (zeros 2) true))
  /\ buffer_add (mk_buffer 2 0 0 (zeros 2) true) (bytes "ab") 2
     = Ok (mk_buffer 2 2 0 (bytes "ab") true, 0)
  /\ buffer_remove (mk_buffer 2 2 0 (bytes "ab") true) (zeros 2) 2
     = Ok (drained_ab, bytes "ab", 2)
  /\ wf drained_ab
  /\ rb_len drained_ab = 0
  /\ buffer_search drained_ab (bytes "ab") 2 = Ok 2
  /\ buffer_search drained_ab (bytes "abc") 3 = Undef.
Proof.
  repeat split; by_computation.
Qed.

(** C2.  A candidate that crosses the end of the storage and differs from
    the separator before the end does not merely get rejected: the search
    returns 0 at once.  In the capacity-8 buffer holding "xyabc" from
    storage index 6 on, "ab" occurs at offset 2, the candidate at offset 1
    crosses the end, and the search for "ab" returns 0. *)
Theorem search_prefix_mismatch_ends_search :
  buffer_add empty_at_6 (bytes "xyabc") 5 = Ok (wrapped_xyabc, 0)
  /\ wf wrapped_xyabc
  /\ contents wrapped_xyabc = bytes "xyabc"
  /\ match_at wrapped_xyabc (bytes "ab") 2
  /\ crosses wrapped_xyabc 2 1
  /\ buffer_search wrapped_xyabc (bytes "ab") 2 = Ok 0.
Proof.
  repeat split; by_computation.
Qed.

(** C3 (counterexample).  Appending "b" to a buffer that still holds "a"
    and removing one byte yields "a", not the appended byte. *)
Lemma nonempty_append_then_remove :
  buffer_new zero_malloc 4 = Ok (Some (mk_buffer 4 0 0 (zeros 4) true))
  /\ buffer_add (mk_buffer 4 0 0 (zeros 4) true) (bytes "a") 1 = Ok (holding_a, 0)
  /\ wf holding_a
  /\ 1 <= rb_remain holding_a
  /\ buffer_add holding_a (bytes "b") 1
     = Ok (mk_buffer 4 2 0 (bytes "ab" ++ zeros 2) true, 0)
  /\ buffer_remove (mk_buffer 4 2 0 (bytes "ab" ++ zeros 2) true) (zeros 1) 1
     = Ok (mk_buffer 4 2 1 (bytes "ab" ++ zeros 2) true, bytes "a", 1)
  /\ bytes "a" <> bytes "b".
Proof.
  repeat split; by_computation.
Qed.

(** C3 (as amended).  In a well-formed buffer with room for [s >= 1] bytes,
    [buffer_add] of the [s] bytes [d] followed by [buffer_remove] of [s]
    bytes succeeds and copies out the first [s] of the buffered bytes
    followed by [d]; when the buffer was empty before the append these are
    exactly the bytes of [d], also when they straddle the end of storage. *)
Theorem append_then_remove r d s out :
  wf r -> 1 <= s <= rb_remain r ->
  Z.of_nat (length d) = s -> s <= Z.of_nat (length out) ->
  exists r1 r2 out',
    buffer_add r d s = Ok (r1, 0)
    /\ buffer_remove r1 out s = Ok (r2, out', to_int s)
    /\ slice out' 0 s = slice (contents r ++ d) 0 s
    /\ (head r = tail r -> slice out' 0 s = d).
Proof.
  intros W S D O.
  destruct (buffer_add_ok r W d s) as (b & E1 & LB & HB); [lia | lia |].
  pose proof (wf_after_add r W b s ltac:(lia) LB) as W1.
  pose proof (contents_after_add r W b d s ltac:(lia) LB D HB) as C1.
  set (r1 := mk_buffer _ _ _ _ _) in *.
  assert (L1 : rb_len r1 = rb_len r + s).
  { apply rb_len_advance_tail; [apply W |].
    rewrite (rb_remain_eq r W) in S. pose proof (rb_len_bounds r W). lia. }
  pose proof (rb_len_bounds r W) as L.
  assert (NE : head r1 <> tail r1).
  { intros E. unfold rb_len in L1 at 1. rewrite E, Z.sub_diag in L1.
    change (u32 0) with 0 in L1. lia. }
  assert (M : Z.min s (rb_len r1) = s) by lia.
  destruct (buffer_remove_ok r1 W1 out s NE) as (out' & E2 & LO & HO);
    [lia | lia |].
  rewrite M in *.
  assert (X : slice out' 0 s = slice (contents r ++ d) 0 s).
  { rewrite <- C1. pose proof (length_contents r1 W1) as LC.
    apply byte_at_ext.
    - apply Nat2Z.inj. rewrite !length_slice by lia. reflexivity.
    - intros j J. rewrite length_slice in J by lia.
      rewrite !byte_at_slice by lia. rewrite HO by lia.
      destruct (Z.ltb_spec (0 + j) s); [reflexivity | lia]. }
  exists r1, (set_head r1 (u32 (head r1 + s))), out'.
  repeat split; try assumption.
  intros Em. rewrite X.
  assert (Z0 : rb_len r = 0)
    by (unfold rb_len; rewrite Em, Z.sub_diag; reflexivity).
  pose proof (length_contents r W) as LC. rewrite Z0 in LC.
  destruct (contents r); [| cbn in LC; lia].
  cbn [app]. rewrite <- D. apply slice_all.
Qed.

Lemma append_then_remove_witness :
  exists r1 r2 out',
    buffer_add empty_at_6 (bytes "wxyz") 4 = Ok (r1, 0)
    /\ buffer_remove r1 (zeros 4) 4 = Ok (r2, out', 4)
    /\ slice out' 0 4 = bytes "wxyz".
Proof.
  destruct (append_then_remove empty_at_6 (bytes "wxyz") 4 (zeros 4))
    as (r1 & r2 & out' & E1 & E2 & _ & E3).
  - wf_by_computation.
  - by_computation.
  - reflexivity.
  - by_computation.
  - exists r1, r2, out'. repeat split; [exact E1 | exact E2 |].
    apply E3. reflexivity.
Defined.

(** C4.  [buffer_add] is all or nothing: when [sz] exceeds [rb_remain] it
    returns -1 and leaves the buffer as it was, cursors and storage alike;
    otherwise, in a well-formed buffer, it returns 0, advances [tail] by
    exactly [sz] (modulo [2^32]), leaves [head] and [size] alone, and the
    buffered bytes become the old ones followed by all [sz] bytes of
    [data]. *)
Theorem buffer_add_all_or_nothing r data sz :
  (sz > rb_remain r -> buffer_add r data sz = Ok (r, -1))
  /\ (wf r -> is_u32 sz -> Z.of_nat (length data) = sz -> sz <= rb_remain r ->
      exists r',
        buffer_add r data sz = Ok (r', 0)
        /\ tail r' = u32 (tail r + sz) /\ head r' = head r /\ size r' = size r
        /\ rb_len r' = rb_len r + sz
        /\ contents r' = contents r ++ data
        /\ wf r').
Proof.
  split; [apply buffer_add_full |].
  intros W [S0 _] D Fits.
  destruct (buffer_add_ok r W data sz) as (b & E & LB & HB); [lia | lia |].
  eexists. split; [exact E |]. cbn [tail head size].
  do 3 (split; [reflexivity |]).
  split; [| split].
  - apply rb_len_advance_tail; [apply W |].
    rewrite (rb_remain_eq r W) in Fits. lia.
  - apply contents_after_add; (assumption || lia).
  - apply wf_after_add; [assumption | lia | assumption].
Qed.

Lemma buffer_add_all_or_nothing_witness :
  buffer_add wrapped_xyabc (bytes "1234") 4 = Ok (wrapped_xyabc, -1)
  /\ exists r',
       buffer_add wrapped_xyabc (bytes "123") 3 = Ok (r', 0)
       /\ tail r' = 14 /\ contents r' = bytes "xyabc123".
Proof.
  split.
  - apply (proj1 (buffer_add_all_or_nothing wrapped_xyabc (bytes "1234") 4)).
    by_computation.
  - destruct (proj2 (buffer_add_all_or_nothing wrapped_xyabc (bytes "123") 3))
      as (r' & E & T & _ & _ & _ & C & _).
    + wf_by_computation.
    + unfold is_u32. by_computation.
    + reflexivity.
    + by_computation.
    + exists r'. repeat split; assumption.
Defined.

(** C5.  The invariant [0 <= rb_len <= size] holds for the buffer
    [buffer_new] returns, and every call (append, remove, drain, search,
    contiguous view) that returns leaves a buffer that satisfies it, with
    the same [size]. *)
Theorem occupancy_invariant :
  (forall malloc sz r,
     is_u32 sz -> buffer_new malloc sz = Ok (Some r) -> invariant r)
  /\ (forall o r r',
       is_u32 (size r) -> typed_op o -> invariant r -> run_op o r = Ok r' ->
       invariant r' /\ size r' = size r).
Proof.
  split.
  - intros malloc sz r U E. exact (proj1 (invariant_new malloc sz r U E)).
  - intros o r r' U T I E. exact (invariant_step r U I o r' T E).
Qed.

Lemma occupancy_invariant_witness :
  invariant (mk_buffer 8 0 0 (zeros 8) true)
  /\ invariant wrapped_xyabc
  /\ invariant (mk_buffer 8 11 9 (bytes "abc...xy") true).
Proof.
  destruct occupancy_invariant as [New Step].
  assert (I0 : invariant (mk_buffer 8 0 0 (zeros 8) true)).
  { apply (New zero_malloc 5); [unfold is_u32 | ]; by_computation. }
  assert (I1 : invariant wrapped_xyabc).
  { apply (Step (Append (bytes "xyabc") 5) empty_at_6).
    - unfold is_u32. by_computation.
    - unfold typed_op, is_u32. by_computation.
    - unfold invariant. by_computation.
    - reflexivity. }
  repeat split; try apply I0; try apply I1;
    apply (Step (Remove (zeros 3) 3) wrapped_xyabc);
    solve [ unfold is_u32; by_computation
          | unfold typed_op, is_u32; by_computation
          | exact I1 | reflexivity ].
Defined.

(** C6 (counterexample).  For the buffer holding "abcXYZdef" the search for
    "XYZ" does not return 7: the separator starts at offset 3 and the
    search returns 3 + 3 = 6. *)
Lemma search_XYZ_is_not_7 :
  buffer_new zero_malloc 16 = Ok (Some (mk_buffer 16 0 0 (zeros 16) true))
  /\ buffer_add (mk_buffer 16 0 0 (zeros 16) true) (bytes "abcXYZdef") 9
     = Ok (holding_abcXYZdef, 0)
  /\ contents holding_abcXYZdef = bytes "abcXYZdef"
  /\ buffer_search holding_abcXYZdef (bytes "XYZ") 3 = Ok 6
  /\ buffer_search holding_abcXYZdef (bytes "XYZ") 3 <> Ok 7.
Proof.
  repeat split; by_computation.
Qed.

(** C6 (as amended).  In a well-formed buffer of capacity at most [2^30]
    and for a non-empty separator not longer than the buffered data:
    if the separator occurs at logical offset [i], does not occur at any
    smaller offset, and no candidate before [i] crosses the end of the
    storage, [buffer_search] returns [i + seplen], which is at least
    [seplen > 0]; if it occurs nowhere and no candidate crosses the end of
    the storage, [buffer_search] returns 0.  For the buffer holding
    "abcXYZdef" the search for "XYZ" returns 6 and the one for "ZZZ"
    returns 0. *)
Theorem buffer_search_first_match r sep seplen :
  wf r -> size r <= 2 ^ 30 ->
  Z.of_nat (length sep) = seplen -> 1 <= seplen <= rb_len r ->
  (forall i,
     0 <= i <= rb_len r - seplen -> match_at r sep i ->
     (forall j, 0 <= j < i -> ~ match_at r sep j /\ ~ crosses r seplen j) ->
     buffer_search r sep seplen = Ok (i + seplen) /\ 0 < seplen <= i + seplen)
  /\ ((forall j, 0 <= j <= rb_len r - seplen ->
         ~ match_at r sep j /\ ~ crosses r seplen j) ->
      buffer_search r sep seplen = Ok 0)
  /\ buffer_search holding_abcXYZdef (bytes "XYZ") 3 = Ok 6
  /\ buffer_search holding_abcXYZdef (bytes "ZZZ") 3 = Ok 0.
Proof.
  intros W S L F. split; [| split; [| split; by_computation]].
  - intros i I M H. split; [| lia].
    apply search_first_match; assumption.
  - intros H. apply search_no_match; assumption.
Qed.

Lemma buffer_search_first_match_witness :
  buffer_search wrapped_abcXYZdef (bytes "XYZ") 3 = Ok (3 + 3)
  /\ buffer_search wrapped_aXYb (bytes "XY") 2 = Ok (1 + 2).
Proof.
  split.
  - destruct (buffer_search_first_match wrapped_abcXYZdef (bytes "XYZ") 3)
      as [Hit _].
    + wf_by_computation.
    + by_computation.
    + reflexivity.
    + by_computation.
    + apply (Hit 3).
      * by_computation.
      * by_computation.
      * intros j J.
        assert (C : j = 0 \/ j = 1 \/ j = 2) by lia.
        destruct C as [-> | [-> | ->]]; split; by_computation.
  - destruct (buffer_search_first_match wrapped_aXYb (bytes "XY") 2)
      as [Hit _].
    + wf_by_computation.
    + by_computation.
    + reflexivity.
    + by_computation.
    + apply (Hit 1).
      * by_computation.
      * by_computation.
      * intros j J. assert (j = 0) as -> by lia. split; by_computation.
Defined.

(** C7 (counterexample).  [roundup_power_of_two 8] is 16, not 8; likewise
    1, itself a power of two, maps to 2. *)
Lemma roundup_doubles_power_of_two :
  roundup_power_of_two 8 = Ok 16 /\ roundup_power_of_two 8 <> Ok 8
  /\ roundup_power_of_two 1 = Ok 2.
Proof.
  repeat split; by_computation.
Qed.

(** C7 (as amended).  For every [n] with [1 <= n < 2^31],
    [roundup_power_of_two n] returns the smallest power of two strictly
    greater than [n], which is the smallest power of two [>= n] whenever
    [n] is not itself a power of two; 0 maps to 2, 8 maps to 16 and 2 maps
    to 4. *)
Theorem roundup_power_of_two_next n :
  1 <= n < 2 ^ 31 ->
  (exists m,
     roundup_power_of_two n = Ok m
     /\ is_pow2 m /\ n < m
     /\ (forall m', is_pow2 m' -> n < m' -> m <= m')
     /\ (~ is_pow2 n -> forall m', is_pow2 m' -> n <= m' -> m <= m'))
  /\ roundup_power_of_two 0 = Ok 2
  /\ roundup_power_of_two 8 = Ok 16
  /\ roundup_power_of_two 2 = Ok 4.
Proof.
  intros N. split; [| repeat split; by_computation].
  pose proof (Z.log2_nonneg n) as LN.
  pose proof (Z.log2_spec n ltac:(lia)) as [Lo Hi].
  exists (2 ^ (Z.log2 n + 1)).
  split; [apply roundup_power_of_two_spec; exact N |].
  split; [exists (Z.log2 n + 1); split; [lia | reflexivity] |].
  split; [unfold Z.succ in Hi; lia |].
  split.
  - intros m' P L. apply is_pow2_above; [lia | exact P | exact L].
  - intros NP m' P L. apply is_pow2_above; [lia | exact P |].
    destruct (Z.eq_dec m' n) as [-> |]; [contradiction | lia].
Qed.

Lemma roundup_power_of_two_next_witness :
  exists m, roundup_power_of_two 5 = Ok m /\ 5 < m /\ m <= 8.
Proof.
  destruct (roundup_power_of_two_next 5) as [(m & E & _ & L & Min & _) _].
  - by_computation.
  - exists m. split; [exact E |]. split; [exact L |].
    apply Min; [exists 3; split; by_computation | by_computation].
Defined.

(** C8 (counterexample).  A request above [2^31] is not rounded up to a
    power of two: the shift [1U << 32] in [roundup_power_of_two] is
    undefined. *)
Lemma buffer_new_above_2_31 :
  buffer_new zero_malloc (2 ^ 31 + 1) = Undef.
Proof.
  by_computation.
Qed.

(** C8 (as amended).  For every request [sz <= 2^31], [buffer_new] uses as
    capacity the smallest power of two that is at least 2 and at least
    [sz]: [sz] itself when it is a power of two [>= 2], the next power of
    two otherwise, 2 for 0 and 1.  Requests 0, 5 and 8 give capacities 2, 8
    and 8. *)
Theorem buffer_new_capacity malloc sz :
  0 <= sz <= 2 ^ 31 ->
  (exists m,
     buffer_new malloc sz
     = Ok (option_map (fun block => mk_buffer m 0 0 block true) (malloc m))
     /\ is_pow2 m /\ 2 <= m /\ sz <= m
     /\ (forall m', is_pow2 m' -> 2 <= m' -> sz <= m' -> m <= m')
     /\ (is_pow2 sz -> 2 <= sz -> m = sz))
  /\ buffer_new malloc 0
     = Ok (option_map (fun block => mk_buffer 2 0 0 block true) (malloc 2))
  /\ buffer_new malloc 1
     = Ok (option_map (fun block => mk_buffer 2 0 0 block true) (malloc 2))
  /\ buffer_new malloc 5
     = Ok (option_map (fun block => mk_buffer 8 0 0 block true) (malloc 8))
  /\ buffer_new malloc 8
     = Ok (option_map (fun block => mk_buffer 8 0 0 block true) (malloc 8)).
Proof.
  intros R. split; [| repeat split; apply buffer_new_eq; reflexivity].
  destruct (normalised_capacity sz R) as (m & E & H).
  exists m. split; [apply buffer_new_eq; exact E | exact H].
Qed.

Lemma buffer_new_capacity_witness :
  exists m,
    buffer_new zero_malloc 5 = Ok (Some (mk_buffer m 0 0 (zeros 8) true))
    /\ m = 8.
Proof.
  destruct (buffer_new_capacity zero_malloc 5) as (_ & _ & _ & E & _).
  - by_computation.
  - exists 8. split; [exact E | reflexivity].
Defined.

(** C9.  When the data wraps, [buffer_write_atmost] does not get as far as
    replacing the storage: after copying the bytes into the new block it
    hands [r->buf] to [free], and in every buffer [buffer_new] makes that
    pointer lies inside the record's own block.  The capacity-8 buffer
    obtained by appending 6 bytes, removing them and appending "xyabc"
    holds its data around the end of the storage, and the call on it has
    no defined result; on the same record with a storage block of its own
    the call would install the storage "xyabc..." and keep both cursors. *)
Theorem write_atmost_wrapped_frees_inline_storage :
  buffer_new zero_malloc 8 = Ok (Some (mk_buffer 8 0 0 (zeros 8) true))
  /\ buffer_add (mk_buffer 8 0 0 (zeros 8) true) (bytes "......") 6
     = Ok (mk_buffer 8 6 0 (bytes "......" ++ zeros 2) true, 0)
  /\ buffer_remove (mk_buffer 8 6 0 (bytes "......" ++ zeros 2) true)
       (zeros 6) 6
     = Ok (empty_at_6, bytes "......", 6)
  /\ buffer_add empty_at_6 (bytes "xyabc") 5 = Ok (wrapped_xyabc, 0)
  /\ wf wrapped_xyabc
  /\ contents wrapped_xyabc = bytes "xyabc"
  /\ wpos wrapped_xyabc < rpos wrapped_xyabc
  /\ buf_inline wrapped_xyabc = true
  /\ buffer_write_atmost zero_malloc wrapped_xyabc = Undef
  /\ buffer_write_atmost zero_malloc
       (set_buf wrapped_xyabc (buf wrapped_xyabc) false)
     = Ok (mk_buffer 8 11 6 (bytes "xyabc" ++ zeros 3) false, 0).
Proof.
  repeat split; by_computation.
Qed.

(** C10.  On an empty buffer [buffer_drain] is not a precondition
    violation: whatever size is requested it returns 0 and leaves the
    buffer, cursors and storage, as it was, whereas [buffer_remove] fails
    its assertion. *)
Theorem buffer_drain_empty r out sz :
  is_u32 (head r) -> is_u32 sz -> head r = tail r ->
  buffer_drain r sz = (r, 0) /\ buffer_remove r out sz = Aborted.
Proof.
  intros H [S _] E. split.
  - rewrite buffer_drain_eq. unfold rb_len. rewrite <- E, Z.sub_diag.
    change (u32 0) with 0. rewrite Z.min_r by lia.
    rewrite Z.add_0_r, (u32_small (head r)) by exact H.
    destruct r; reflexivity.
  - unfold buffer_remove, rb_isempty. rewrite E, Z.eqb_refl. reflexivity.
Qed.

Lemma buffer_drain_empty_witness :
  buffer_drain drained_ab 5 = (drained_ab, 0)
  /\ buffer_remove drained_ab (zeros 5) 5 = Aborted.
Proof.
  apply (buffer_drain_empty drained_ab (zeros 5) 5).
  - unfold is_u32. by_computation.
  - unfold is_u32. by_computation.
  - reflexivity.
Defined.

(** ** Further properties of the code *)

(** *** Capacity and construction *)

(** X1.  On a [uint32_t], [is_power_of_two] answers true exactly for the
    powers of two from [2^1] to [2^31]; 1 is refused. *)
Theorem is_power_of_two_iff n :
  is_u32 n ->
  (is_power_of_two n = true <-> exists k, 1 <= k <= 31 /\ n = 2 ^ k).
Proof.
  intros U. split.
  - apply is_power_of_two_inv. exact U.
  - intros (k & K & ->). apply is_power_of_two_pow2. exact K.
Qed.

Lemma is_power_of_two_iff_witness :
  is_power_of_two 1024 = true /\ is_power_of_two 1 = false.
Proof.
  split.
  - apply (proj2 (is_power_of_two_iff 1024 ltac:(unfold is_u32; by_computation))).
    exists 10. split; by_computation.
  - reflexivity.
Defined.

(** X2.  For every request above [2^31], [buffer_new] has no defined
    result, whatever [malloc] does: such a request is not a power of two,
    [roundup_power_of_two] counts 32 shifts and evaluates [1U << 32]. *)
Theorem buffer_new_overflow malloc sz :
  2 ^ 31 < sz < 2 ^ 32 -> buffer_new malloc sz = Undef.
Proof.
  intros R. unfold buffer_new.
  destruct (is_power_of_two sz) eqn:P.
  - assert (U : is_u32 sz) by (unfold is_u32; rewrite UINT_MOD_eq; lia).
    pose proof (is_power_of_two_bounds sz U P). lia.
  - rewrite roundup_power_of_two_overflow by lia. reflexivity.
Qed.

Lemma buffer_new_overflow_witness :
  buffer_new zero_malloc 4294967295 = Undef.
Proof.
  apply (buffer_new_overflow zero_malloc 4294967295). by_computation.
Defined.

Lemma rb_isempty_len r :
  is_u32 (head r) -> is_u32 (tail r) -> (rb_isempty r = 1 <-> rb_len r = 0).
Proof.
  unfold is_u32, rb_isempty, rb_len, u32. rewrite UINT_MOD_eq. intros H T.
  destruct (Z.eqb_spec (head r) (tail r)) as [E | NE].
  - rewrite E, Z.sub_diag. split; reflexivity.
  - split; [discriminate |]. intros Z0. exfalso.
    destruct (Z_lt_ge_dec (tail r) (head r)).
    + replace (tail r - head r)
        with (tail r - head r + 4294967296 + (-1) * 4294967296) in Z0 by lia.
      rewrite Z_mod_plus_full, Z.mod_small in Z0 by lia. lia.
    + rewrite Z.mod_small in Z0 by lia. lia.
Qed.

Lemma rb_isfull_remain r : wf r -> (rb_isfull r = 1 <-> rb_remain r = 0).
Proof.
  intros W. rewrite (rb_remain_eq r W). unfold rb_isfull. fold (rb_len r).
  destruct (Z.eqb_spec (size r) (rb_len r)); split; intros; (lia || discriminate).
Qed.

Lemma buffer_new_result malloc sz :
  0 <= sz <= 2 ^ 31 -> malloc_sized malloc ->
  exists m,
    (malloc m = None -> buffer_new malloc sz = Ok None)
    /\ (forall block, malloc m = Some block ->
        let r := mk_buffer m 0 0 block true in
        buffer_new malloc sz = Ok (Some r)
        /\ wf r /\ rb_isempty r = 1 /\ rb_isfull r = 0
        /\ rb_len r = 0 /\ rb_remain r = m /\ contents r = []).
Proof.
  intros R MS.
  destruct (normalised_capacity sz R) as (m & E & (k & K & ->) & M2 & _).
  set (m := 2 ^ k) in *.
  pose proof (buffer_new_eq malloc sz m E) as N.
  assert (K31 : 1 <= k <= 31).
  { destruct (is_power_of_two sz) eqn:P.
    - injection E as ->.
      assert (U : is_u32 m) by (unfold is_u32; rewrite UINT_MOD_eq; lia).
      destruct (is_power_of_two_inv m U P) as (k' & K' & E').
      assert (k = k'); [| lia].
      apply (Z.pow_inj_r 2); unfold m in E'; lia.
    - destruct (Z.eq_dec sz 0) as [-> | NZ].
      + injection E as E. assert (k = 1); [| lia].
        apply (Z.pow_inj_r 2); unfold m in E; simpl; lia.
      + assert (N31 : sz < 2 ^ 31).
        { destruct (Z.eq_dec sz (2 ^ 31)) as [-> |]; [discriminate | lia]. }
        rewrite roundup_power_of_two_spec in E by lia. injection E as E.
        assert (L : Z.log2 sz < 31) by (apply Z.log2_lt_pow2; lia).
        pose proof (Z.log2_nonneg sz).
        assert (k = Z.log2 sz + 1); [| lia].
        apply (Z.pow_inj_r 2); unfold m in E; lia. }
  pose proof (pow2_bounds k K31) as B. fold m in B.
  exists m. split.
  - intros F. rewrite N, F. reflexivity.
  - intros block F r. rewrite N, F. cbn [option_map].
    assert (W : wf r).
    { constructor; unfold r, rb_len; cbn [size tail head buf].
      - split; [apply is_power_of_two_pow2; exact K31 |].
        unfold is_u32. rewrite UINT_MOD_eq. lia.
      - unfold is_u32. rewrite UINT_MOD_eq. lia.
      - unfold is_u32. rewrite UINT_MOD_eq. lia.
      - change (u32 (0 - 0)) with 0. fold m. lia.
      - apply MS; [lia | exact F]. }
    assert (L0 : rb_len r = 0) by reflexivity.
    split; [reflexivity |]. split; [exact W |].
    split; [reflexivity |].
    split.
    { unfold rb_isfull. cbn [size tail head r]. change (u32 (0 - 0)) with 0.
      destruct (Z.eqb_spec m 0); [lia | reflexivity]. }
    split; [exact L0 |].
    split; [rewrite (rb_remain_eq r W), L0; cbn [size r]; lia |].
    unfold contents. rewrite L0. reflexivity.
Qed.

(** X3.  For a request of at most [2^31] and a [malloc] that hands out
    blocks of the size asked for, [buffer_new] returns [NULL] exactly when
    [malloc] fails, and otherwise a well-formed buffer that is empty and
    not full, with both cursors at 0 and all of its capacity free. *)
Theorem buffer_new_fresh malloc sz :
  0 <= sz <= 2 ^ 31 -> malloc_sized malloc ->
  exists m,
    (malloc m = None -> buffer_new malloc sz = Ok None)
    /\ (forall block, malloc m = Some block ->
        let r := mk_buffer m 0 0 block true in
        buffer_new malloc sz = Ok (Some r)
        /\ wf r /\ rb_isempty r = 1 /\ rb_isfull r = 0
        /\ rb_len r = 0 /\ rb_remain r = m /\ contents r = []).
Proof.
  intros R MS. apply buffer_new_result; assumption.
Qed.

Lemma zero_malloc_sized : malloc_sized zero_malloc.
Proof.
  intros n block N [= <-]. rewrite repeat_length. lia.
Qed.

Lemma buffer_new_fresh_witness :
  exists r, buffer_new zero_malloc 5 = Ok (Some r) /\ wf r /\ rb_remain r = 8.
Proof.
  destruct (buffer_new_fresh zero_malloc 5) as (m & _ & H).
  - by_computation.
  - exact zero_malloc_sized.
  - assert (M : m = 8).
    { destruct (zero_malloc m) as [block |] eqn:F; [| discriminate].
      destruct (H block eq_refl) as (E & _).
      vm_compute in E. injection E as E _. symmetry. exact E. }
    subst m. destruct (H (zeros 8) eq_refl) as (E & W & _ & _ & _ & RM & _).
    eexists. split; [exact E |]. split; [exact W | exact RM].
Defined.

(** *** Occupancy *)

(** X4.  In a well-formed buffer the occupancy queries agree with each
    other and with [buffer_add]: the buffer is empty exactly when
    [rb_len] is 0, full exactly when [rb_remain] is 0, [rb_len] and
    [rb_remain] add up to [size], and a one-byte append is rejected
    exactly when the buffer is full. *)
Theorem occupancy_queries r b :
  wf r ->
  (rb_isempty r = 1 <-> rb_len r = 0)
  /\ (rb_isfull r = 1 <-> rb_remain r = 0)
  /\ rb_len r + rb_remain r = size r
  /\ (rb_isfull r = 1 <-> buffer_add r [b] 1 = Ok (r, -1)).
Proof.
  intros W.
  split; [apply rb_isempty_len; apply W |].
  split; [apply rb_isfull_remain; exact W |].
  split; [rewrite (rb_remain_eq r W); lia |].
  rewrite (rb_isfull_remain r W).
  pose proof (rb_remain_eq r W) as RM. pose proof (rb_len_bounds r W) as L.
  split.
  - intros Z0. apply buffer_add_full. lia.
  - intros E.
    destruct (Z.eq_dec (rb_remain r) 0) as [| NZ]; [assumption | exfalso].
    destruct (buffer_add_ok r W [b] 1) as (b' & E' & _); [lia | simpl; lia |].
    rewrite E' in E. discriminate.
Qed.

Lemma occupancy_queries_witness :
  rb_isfull full_wrapped_cursor = 1
  /\ buffer_add full_wrapped_cursor (bytes "g") 1 = Ok (full_wrapped_cursor, -1).
Proof.
  destruct (occupancy_queries full_wrapped_cursor "g"%byte) as (_ & _ & _ & F).
  - wf_by_computation.
  - split; [reflexivity |]. apply (proj1 F). reflexivity.
Defined.

(** *** First in, first out *)









(** *** What [buffer_search] reports *)

Section SearchResults.

Variable r : buffer_t.
Variable sep : list byte.
Variable seplen : Z.
Hypothesis W : wf r.
Hypothesis small : size r <= 2 ^ 30.
Hypothesis sep_length : Z.of_nat (length sep) = seplen.
Hypothesis sep_fits : 1 <= seplen <= rb_len r.

Local Notation "'bound'" := (rb_len r - seplen).

Lemma search_loop_sound n : forall i v,
  0 <= i -> i + Z.of_nat n = bound + 1 ->
  (forall j, 0 <= j < i -> ~ match_at r sep j) ->
  search_loop r sep seplen i = Ok v -> v <> 0 ->
  exists i0,
    v = i0 + seplen /\ i <= i0 <= bound /\ match_at r sep i0
    /\ forall j, 0 <= j < i0 -> ~ match_at r sep j.
Proof.
  induction n as [| n IH]; intros i v I B H E V.
  - replace i with (bound + 1) in E by lia.
    rewrite (search_loop_end r sep seplen W small sep_fits) in E.
    congruence.
  - assert (Ib : 0 <= i <= bound) by lia.
    rewrite search_loop_step in E.
    rewrite (search_loop_cond r sep seplen W small sep_fits) in E by lia.
    destruct (Z.leb_spec i bound); [| lia].
    destruct (Z_lt_ge_dec (size r) (phys r i + seplen)) as [C | NC].
    + rewrite (search_body_wrap r sep seplen W small sep_length sep_fits i Ib C) in E.
      destruct (Z.eqb_spec
                  (compare_bytes (slice (buf r) (phys r i) (size r - phys r i))
                                 (slice sep 0 (size r - phys r i))) 0)
        as [C1 |]; [| congruence].
      destruct (Z.eqb_spec
                  (compare_bytes
                     (slice (buf r) 0 (phys r i + seplen - size r))
                     (slice sep (size r - phys r i)
                            (phys r i + seplen - size r))) 0)
        as [C2 |]; [| discriminate].
      injection E as <-. exists i. repeat split; try lia; try assumption.
      apply (wrap_compare_match r sep seplen W sep_length sep_fits i Ib C).
      split; assumption.
    + assert (NC' : ~ crosses r seplen i) by (unfold crosses; lia).
      rewrite (search_body_direct r sep seplen W small sep_length sep_fits i Ib NC') in E.
      destruct (Z.eqb_spec
                  (compare_bytes (slice (buf r) (phys r i) seplen)
                                 (slice sep 0 seplen)) 0) as [C0 | C0].
      * injection E as <-. exists i. repeat split; try lia; try assumption.
        apply (direct_compare_match r sep seplen W sep_length sep_fits i Ib NC').
        exact C0.
      * assert (M : ~ match_at r sep i).
        { intros M.
          apply (direct_compare_match r sep seplen W sep_length sep_fits
                   i Ib NC') in M. contradiction. }
        destruct (Z.ltb_spec i INT_MAX); [| discriminate].
        destruct (IH (i + 1) v) as (i0 & P1 & P2 & P3 & P4);
          try assumption; try lia.
        { intros j J. destruct (Z.eq_dec j i) as [-> |]; [exact M |].
          apply H. lia. }
        exists i0. repeat split; try lia; assumption.
Qed.

End SearchResults.

Lemma compare_slices_differ a aoff b boff n :
  0 <= aoff -> 0 <= boff -> 0 <= n ->
  aoff + n <= Z.of_nat (length a) -> boff + n <= Z.of_nat (length b) ->
  slice a aoff n <> slice b boff n ->
  (compare_bytes (slice a aoff n) (slice b boff n) =? 0) = false.
Proof.
  intros. apply Z.eqb_neq. intros E.
  apply compare_bytes_eq in E; [contradiction |].
  apply Nat2Z.inj. rewrite !length_slice; lia.
Qed.

Lemma compare_slices_same a aoff b boff n :
  slice a aoff n = slice b boff n ->
  (compare_bytes (slice a aoff n) (slice b boff n) =? 0) = true.
Proof.
  intros ->. apply Z.eqb_eq. apply compare_bytes_eq; reflexivity.
Qed.

(** X8.  A non-zero result of [buffer_search] is never a false alarm: for
    a non-empty separator not longer than the data in a well-formed buffer
    of capacity at most [2^30], a returned [v <> 0] lies between [seplen]
    and [rb_len], the separator occurs at logical offset [v - seplen], and
    at no smaller offset. *)
Theorem buffer_search_sound r sep seplen v :
  wf r -> size r <= 2 ^ 30 ->
  Z.of_nat (length sep) = seplen -> 1 <= seplen <= rb_len r ->
  buffer_search r sep seplen = Ok v -> v <> 0 ->
  seplen <= v <= rb_len r
  /\ match_at r sep (v - seplen)
  /\ forall j, 0 <= j < v - seplen -> ~ match_at r sep j.
Proof.
  intros W S L F E V. unfold buffer_search in E.
  destruct (search_loop_sound r sep seplen W S L F
              (Z.to_nat (rb_len r - seplen + 1)) 0 v)
    as (i0 & -> & B & M & H); try assumption; try lia.
  replace (i0 + seplen - seplen) with i0 by lia.
  repeat split; try lia; assumption.
Qed.

Lemma buffer_search_sound_witness :
  match_at wrapped_aXYb (bytes "XY") (3 - 2)
  /\ forall j, 0 <= j < 3 - 2 -> ~ match_at wrapped_aXYb (bytes "XY") j.
Proof.
  destruct (buffer_search_sound wrapped_aXYb (bytes "XY") 2 3) as (_ & M & H).
  - wf_by_computation.
  - by_computation.
  - reflexivity.
  - by_computation.
  - by_computation.
  - lia.
  - split; assumption.
Defined.

(** X9.  [buffer_search] gives up at the end of the storage: when the first
    candidate that crosses the end differs from the separator in the bytes
    before the end, the search returns 0 there and then, and no later
    offset is looked at. *)
Theorem buffer_search_gives_up r sep seplen i :
  wf r -> size r <= 2 ^ 30 ->
  Z.of_nat (length sep) = seplen -> 1 <= seplen <= rb_len r ->
  0 <= i <= rb_len r - seplen -> crosses r seplen i ->
  (forall j, 0 <= j < i -> ~ match_at r sep j /\ ~ crosses r seplen j) ->
  slice (buf r) (phys r i) (size r - phys r i)
    <> slice sep 0 (size r - phys r i) ->
  buffer_search r sep seplen = Ok 0.
Proof.
  intros W S L F I C H D. unfold buffer_search.
  pose proof (phys_bounds r W i) as P. pose proof (wf_buf r W) as B.
  unfold crosses in C.
  rewrite (search_loop_skip r sep seplen W S L F (Z.to_nat i) 0)
    by (rewrite ?Z2Nat.id; lia || (intros; apply H; lia)).
  rewrite Z2Nat.id, Z.add_0_l by lia.
  rewrite search_loop_step, (search_loop_cond r sep seplen W S F) by lia.
  destruct (Z.leb_spec i (rb_len r - seplen)); [| lia].
  rewrite (search_body_wrap r sep seplen W S L F i I C).
  rewrite compare_slices_differ by (assumption || lia).
  reflexivity.
Qed.

Lemma buffer_search_gives_up_witness :
  match_at wrapped_xyabc (bytes "ab") 2
  /\ buffer_search wrapped_xyabc (bytes "ab") 2 = Ok 0.
Proof.
  split; [by_computation |].
  apply (buffer_search_gives_up wrapped_xyabc (bytes "ab") 2 1).
  - wf_by_computation.
  - by_computation.
  - reflexivity.
  - by_computation.
  - by_computation.
  - by_computation.
  - intros j J. assert (j = 0) as -> by lia. split; by_computation.
  - by_computation.
Defined.

(** X10.  [buffer_search] reads past the end of the storage: when the first
    candidate that crosses the end agrees with the separator up to the end
    but not in the wrapped part, control reaches the single [memcmp] of
    [seplen] bytes at that position, which runs over the end of the
    storage. *)
Theorem buffer_search_overruns r sep seplen i :
  wf r -> size r <= 2 ^ 30 ->
  Z.of_nat (length sep) = seplen -> 1 <= seplen <= rb_len r ->
  0 <= i <= rb_len r - seplen -> crosses r seplen i ->
  (forall j, 0 <= j < i -> ~ match_at r sep j /\ ~ crosses r seplen j) ->
  slice (buf r) (phys r i) (size r - phys r i)
    = slice sep 0 (size r - phys r i) ->
  slice (buf r) 0 (phys r i + seplen - size r)
    <> slice sep (size r - phys r i) (phys r i + seplen - size r) ->
  buffer_search r sep seplen = Undef
  /\ read_bytes (buf r) (phys r i) seplen = Undef.
Proof.
  intros W S L F I C H E D.
  pose proof (phys_bounds r W i) as P. pose proof (wf_buf r W) as B.
  pose proof (rb_len_bounds r W) as LB.
  unfold crosses in C.
  split; [| apply read_bytes_past_end; lia].
  unfold buffer_search.
  rewrite (search_loop_skip r sep seplen W S L F (Z.to_nat i) 0)
    by (rewrite ?Z2Nat.id; lia || (intros; apply H; lia)).
  rewrite Z2Nat.id, Z.add_0_l by lia.
  rewrite search_loop_step, (search_loop_cond r sep seplen W S F) by lia.
  destruct (Z.leb_spec i (rb_len r - seplen)); [| lia].
  rewrite (search_body_wrap r sep seplen W S L F i I C).
  rewrite compare_slices_same by assumption.
  rewrite compare_slices_differ by (assumption || lia).
  reflexivity.
Qed.

Lemma buffer_search_overruns_witness :
  buffer_search wrapped_xyabc (bytes "yb") 2 = Undef.
Proof.
  apply (buffer_search_overruns wrapped_xyabc (bytes "yb") 2 1).
  - wf_by_computation.
  - by_computation.
  - reflexivity.
  - by_computation.
  - by_computation.
  - by_computation.
  - intros j J. assert (j = 0) as -> by lia. split; by_computation.
  - by_computation.
  - by_computation.
Defined.

(** X11.  An empty separator is reported as not found: with [seplen = 0]
    the first comparison succeeds at offset 0 and the search returns
    [0 + 0], the value that stands for no match. *)
Theorem buffer_search_empty_separator r sep :
  wf r -> buffer_search r sep 0 = Ok 0.
Proof.
  intros W. unfold buffer_search.
  pose proof (phys_bounds r W 0) as P. pose proof (wf_buf r W) as B.
  pose proof (wf_size_bounds r W) as S. pose proof (rb_len_is_u32 r) as L.
  rewrite search_loop_step. change (u32 0) with 0. rewrite Z.sub_0_r.
  rewrite (u32_small (rb_len r)) by exact L.
  destruct (Z.leb_spec 0 (rb_len r)); [| destruct L; lia].
  unfold search_body. change (u32 0) with 0. fold (phys r 0).
  rewrite to_int_small by (rewrite INT_MAX_eq; lia). cbv zeta.
  rewrite (int_add_small sep (phys r 0) 0) by lia. cbn [bind].
  rewrite Z.add_0_r, (u32_small (phys r 0))
    by (unfold is_u32; rewrite UINT_MOD_eq; lia).
  rewrite Z.gtb_ltb. destruct (Z.ltb_spec (size r) (phys r 0)); [lia |].
  rewrite memcmp_ok by lia. reflexivity.
Qed.

Lemma buffer_search_empty_separator_witness :
  buffer_search wrapped_xyabc [] 0 = Ok 0.
Proof.
  apply (buffer_search_empty_separator wrapped_xyabc []).
  wf_by_computation.
Defined.

(** X12.  [buffer_search] can report bytes that are not in the buffer: when
    the separator is longer than the buffered data, the unsigned bound
    wraps and offset 0 is tried; if the storage bytes from the read
    position on, buffered or not, spell the separator before the end of
    the storage, the search returns [seplen], although the separator
    occurs at no offset of the buffered bytes. *)
Theorem buffer_search_stale_match r sep seplen :
  wf r -> size r <= 2 ^ 30 ->
  Z.of_nat (length sep) = seplen -> rb_len r < seplen ->
  rpos r + seplen <= size r ->
  slice (buf r) (rpos r) seplen = sep ->
  buffer_search r sep seplen = Ok seplen
  /\ forall i, ~ match_at r sep i.
Proof.
  intros W S L Lt Fit E.
  pose proof (wf_buf r W) as B. pose proof (wf_size_bounds r W) as SB.
  pose proof (rb_len_is_u32 r) as LU.
  assert (R : rpos r = phys r 0)
    by (unfold rpos; rewrite phys_mod, (wf_mask r W), Z.add_0_r by exact W;
        reflexivity).
  pose proof (phys_bounds r W 0) as P. rewrite <- R in P.
  change (2 ^ 30) with 1073741824 in S.
  split.
  - unfold buffer_search. rewrite search_loop_step. change (u32 0) with 0.
    destruct (Z.leb_spec 0 (u32 (rb_len r - u32 seplen)));
      [| pose proof (u32_is_u32 (rb_len r - u32 seplen)) as U; destruct U; lia].
    unfold search_body. change (u32 0) with 0. fold (phys r 0). rewrite <- R.
    rewrite to_int_small by (rewrite INT_MAX_eq; lia). cbv zeta.
    rewrite (int_add_small sep (rpos r) seplen) by lia. cbn [bind].
    rewrite (u32_small (rpos r + seplen))
      by (unfold is_u32; rewrite UINT_MOD_eq; lia).
    rewrite Z.gtb_ltb.
    destruct (Z.ltb_spec (size r) (rpos r + seplen)); [lia |].
    rewrite memcmp_ok by (destruct LU; lia). cbn [bind].
    rewrite <- L at 2. rewrite slice_all, E.
    replace (compare_bytes sep sep =? 0) with true
      by (symmetry; apply Z.eqb_eq, compare_bytes_eq; reflexivity).
    rewrite (int_add_small sep 0 seplen) by (destruct LU; lia). reflexivity.
  - unfold match_at. intros i M.
    assert (LM : Z.of_nat (length (slice (contents r) i (Z.of_nat (length sep))))
                 <= rb_len r).
    { unfold slice. rewrite length_firstn, length_skipn.
      pose proof (length_contents r W). lia. }
    rewrite M in LM. lia.
Qed.

Lemma buffer_search_stale_match_witness :
  rb_len drained_ab = 0 /\ buffer_search drained_ab (bytes "ab") 2 = Ok 2.
Proof.
  split; [reflexivity |].
  apply (buffer_search_stale_match drained_ab (bytes "ab") 2).
  - wf_by_computation.
  - by_computation.
  - reflexivity.
  - by_computation.
  - by_computation.
  - reflexivity.
Defined.

(** *** The contiguous view *)

Lemma rpos_mod r : wf r -> rpos r = head r mod size r.
Proof. intros W. unfold rpos. apply (wf_mask r W). Qed.

Lemma wpos_mod r : wf r -> wpos r = tail r mod size r.
Proof. intros W. unfold wpos. apply (wf_mask r W). Qed.

(** The number of buffered bytes, modulo the capacity, is the distance
    between the two storage positions. *)
Lemma rb_len_mod r :
  wf r -> rb_len r mod size r = (wpos r - rpos r) mod size r.
Proof.
  intros W. rewrite (rpos_mod r W), (wpos_mod r W).
  unfold rb_len. rewrite (wf_u32_mod r W). apply Zminus_mod.
Qed.

(** X13.  When the data does not wrap and the buffer is not full,
    [buffer_write_atmost] returns the storage as it is with offset [rpos],
    and the [rb_len] bytes from there lie inside the storage and are
    exactly the buffered bytes, oldest first. *)
Theorem contiguous_view_in_place malloc r :
  wf r -> rpos r <= wpos r -> rb_len r < size r ->
  buffer_write_atmost malloc r = Ok (r, rpos r)
  /\ read_bytes (buf r) (rpos r) (rb_len r) = Ok (contents r).
Proof.
  intros W NW NF.
  pose proof (wf_size_bounds r W) as S. pose proof (wf_buf r W) as B.
  pose proof (rb_len_bounds r W) as L.
  pose proof (rb_len_mod r W) as LM.
  assert (R : 0 <= rpos r < size r)
    by (rewrite rpos_mod by exact W; apply Z.mod_pos_bound; lia).
  assert (Wp : 0 <= wpos r < size r)
    by (rewrite wpos_mod by exact W; apply Z.mod_pos_bound; lia).
  rewrite !Z.mod_small in LM by lia.
  split.
  - unfold buffer_write_atmost.
    destruct (Z.ltb_spec (wpos r) (rpos r)); [lia | reflexivity].
  - rewrite read_bytes_ok by lia. f_equal.
    pose proof (length_contents r W) as LC.
    apply byte_at_ext.
    + apply Nat2Z.inj. rewrite length_slice by lia. lia.
    + intros j J. rewrite length_slice in J by lia.
      rewrite byte_at_slice by lia.
      rewrite byte_at_contents by (assumption || lia).
      rewrite mod_add_cases by lia. rewrite <- rpos_mod by exact W.
      destruct (Z.ltb_spec (rpos r + j) (size r)); [reflexivity | lia].
Qed.

Lemma contiguous_view_in_place_witness :
  buffer_write_atmost zero_malloc (mk_buffer 8 7 2 (bytes "..hello.") true)
  = Ok (mk_buffer 8 7 2 (bytes "..hello.") true, 2)
  /\ read_bytes (bytes "..hello.") 2 5 = Ok (bytes "hello").
Proof.
  apply (contiguous_view_in_place zero_malloc
           (mk_buffer 8 7 2 (bytes "..hello.") true)).
  - wf_by_computation.
  - by_computation.
  - by_computation.
Defined.

Lemma relayout_result malloc r temp :
  wf r -> wpos r < rpos r ->
  malloc (size r) = Some temp -> Z.of_nat (length temp) = size r ->
  buf_inline r = false ->
  exists r',
    buffer_write_atmost malloc r = Ok (r', 0)
    /\ read_bytes (buf r') 0 (rb_len r) = Ok (contents r)
    /\ head r' = head r /\ tail r' = tail r /\ size r' = size r
    /\ buf_inline r' = false
    /\ wf r'.
Proof.
  intros W Lt M LT NI.
  pose proof (wf_size_bounds r W) as S. pose proof (wf_buf r W) as B.
  pose proof (rb_len_bounds r W) as L.
  pose proof (rb_len_mod r W) as LM.
  assert (R : 0 <= rpos r < size r)
    by (rewrite rpos_mod by exact W; apply Z.mod_pos_bound; lia).
  assert (Wp : 0 <= wpos r < size r)
    by (rewrite wpos_mod by exact W; apply Z.mod_pos_bound; lia).
  assert (LE : rb_len r = wpos r - rpos r + size r).
  { replace ((wpos r - rpos r) mod size r) with (wpos r - rpos r + size r) in LM.
    - destruct (Z.eq_dec (rb_len r) (size r)) as [F | NF].
      + rewrite F, Z.mod_same in LM by lia. lia.
      + rewrite Z.mod_small in LM by lia. exact LM.
    - symmetry.
      replace (wpos r - rpos r)
        with (wpos r - rpos r + size r + (-1) * size r) at 1 by lia.
      rewrite Z_mod_plus_full. apply Z.mod_small. lia. }
  rewrite (write_atmost_relayout malloc r temp W Lt M LT NI).
  set (b := splice (splice temp 0 (slice (buf r) (rpos r) (size r - rpos r)))
                   (size r - rpos r) (slice (buf r) 0 (wpos r))).
  assert (L1 : length (splice temp 0 (slice (buf r) (rpos r) (size r - rpos r)))
               = length temp)
    by (apply length_splice; rewrite ?length_slice; lia).
  assert (LB : length b = length temp)
    by (unfold b; rewrite length_splice; rewrite ?length_slice; lia).
  exists (set_buf r b false). split; [reflexivity |].
  split.
  { cbn [buf set_buf]. rewrite read_bytes_ok by lia. f_equal.
    pose proof (length_contents r W) as LC.
    apply byte_at_ext.
    - apply Nat2Z.inj. rewrite length_slice by lia. lia.
    - intros j J. rewrite length_slice in J by lia.
      rewrite byte_at_slice by lia.
      rewrite byte_at_contents by (assumption || lia).
      rewrite mod_add_cases by lia. rewrite <- rpos_mod by exact W.
      unfold b.
      rewrite byte_at_splice by (rewrite ?length_slice; lia).
      rewrite byte_at_splice by (rewrite ?length_slice; lia).
      rewrite !length_slice by lia.
      zcases; try lia; rewrite ?byte_at_slice by lia; f_equal; lia. }
  do 4 (split; [reflexivity |]).
  constructor; cbn [size tail head buf set_buf]; try apply W.
  rewrite LB. exact LT.
Qed.

(** X14.  When the data wraps and the storage is a block of its own,
    [buffer_write_atmost] with a [malloc] that succeeds installs a storage
    whose first [rb_len] bytes are exactly the buffered bytes, oldest
    first, and returns offset 0; the cursors and the size stay, and the
    buffer stays well-formed. *)
Theorem contiguous_view_relayout malloc r temp :
  wf r -> wpos r < rpos r ->
  malloc (size r) = Some temp -> Z.of_nat (length temp) = size r ->
  buf_inline r = false ->
  exists r',
    buffer_write_atmost malloc r = Ok (r', 0)
    /\ read_bytes (buf r') 0 (rb_len r) = Ok (contents r)
    /\ head r' = head r /\ tail r' = tail r /\ size r' = size r
    /\ buf_inline r' = false
    /\ wf r'.
Proof.
  intros W Lt M LT NI. apply (relayout_result malloc r temp); assumption.
Qed.

Lemma contiguous_view_relayout_witness :
  exists r',
    buffer_write_atmost zero_malloc wrapped_wxyz = Ok (r', 0)
    /\ read_bytes (buf r') 0 4 = Ok (bytes "wxyz").
Proof.
  destruct (contiguous_view_relayout zero_malloc wrapped_wxyz (zeros 8))
    as (r' & E & C & _).
  - wf_by_computation.
  - by_computation.
  - reflexivity.
  - reflexivity.
  - reflexivity.
  - exists r'. split; [exact E | exact C].
Defined.

(** X15.  A full buffer is always taken for contiguous: when the buffer is
    full, [rpos] and [wpos] coincide, so [buffer_write_atmost] returns the
    storage as it is with offset [rpos]; if [rpos] is not 0 the [rb_len]
    bytes from that offset run past the end of the storage. *)
Theorem contiguous_view_full malloc r :
  wf r -> rb_len r = size r ->
  wpos r = rpos r
  /\ buffer_write_atmost malloc r = Ok (r, rpos r)
  /\ (0 < rpos r -> read_bytes (buf r) (rpos r) (rb_len r) = Undef).
Proof.
  intros W F.
  pose proof (wf_size_bounds r W) as S. pose proof (wf_buf r W) as B.
  pose proof (rb_len_mod r W) as LM.
  assert (R : 0 <= rpos r < size r)
    by (rewrite rpos_mod by exact W; apply Z.mod_pos_bound; lia).
  assert (Wp : 0 <= wpos r < size r)
    by (rewrite wpos_mod by exact W; apply Z.mod_pos_bound; lia).
  rewrite F, Z.mod_same in LM by lia.
  assert (E : wpos r = rpos r).
  { destruct (Z_lt_ge_dec (wpos r) (rpos r)).
    - replace (wpos r - rpos r)
        with (wpos r - rpos r + size r + (-1) * size r) in LM by lia.
      rewrite Z_mod_plus_full, Z.mod_small in LM by lia. lia.
    - rewrite Z.mod_small in LM by lia. lia. }
  split; [exact E |]. split.
  - unfold buffer_write_atmost.
    destruct (Z.ltb_spec (wpos r) (rpos r)); [lia | reflexivity].
  - intros P. apply read_bytes_past_end. lia.
Qed.

Lemma contiguous_view_full_witness :
  buffer_write_atmost zero_malloc full_wrapped_cursor
  = Ok (full_wrapped_cursor, 2)
  /\ read_bytes (bytes "efcd") 2 4 = Undef.
Proof.
  destruct (contiguous_view_full zero_malloc full_wrapped_cursor)
    as (_ & E & U).
  - wf_by_computation.
  - reflexivity.
  - split; [exact E | apply U; by_computation].
Defined.

Lemma memcpy_cases dst doff src soff n :
  memcpy dst doff src soff n = Undef
  \/ exists d, memcpy dst doff src soff n = Ok d /\ length d = length dst.
Proof.
  unfold memcpy, read_bytes.
  destruct ((0 <=? soff) && (0 <=? n) && (soff + n <=? Z.of_nat (length src)));
    [| left; reflexivity].
  cbn [bind]. unfold write_bytes.
  destruct (Z.leb_spec 0 doff); [| left; reflexivity].
  destruct (Z.leb_spec (doff + Z.of_nat (length (slice src soff n)))
                       (Z.of_nat (length dst))); [| left; reflexivity].
  right. eexists. split; [reflexivity |].
  apply length_splice; assumption.
Qed.

Lemma write_atmost_no_result malloc r :
  wpos r < rpos r ->
  malloc (size r) = None \/ buf_inline r = true ->
  buffer_write_atmost malloc r = Undef.
Proof.
  intros Lt H. unfold buffer_write_atmost.
  destruct (Z.ltb_spec (wpos r) (rpos r)); [| lia].
  destruct (malloc (size r)) as [temp |]; [| reflexivity].
  destruct H as [H | H]; [discriminate |]. rewrite H.
  destruct (memcpy_cases temp 0 (buf r) (rpos r) (u32 (size r - rpos r)))
    as [-> | (t1 & -> & _)]; [reflexivity |]. cbn [bind].
  destruct (memcpy_cases t1 (size r - rpos r) (buf r) 0 (wpos r))
    as [-> | (t2 & -> & _)]; reflexivity.
Qed.

(** X16.  The relayout of [buffer_write_atmost] has no defined result when
    [malloc] fails, its result being used unchecked, nor when the storage
    is the one [buffer_new] set up, which is not a block [free] may be
    given. *)
Theorem relayout_undefined malloc r :
  wpos r < rpos r ->
  malloc (size r) = None \/ buf_inline r = true ->
  buffer_write_atmost malloc r = Undef.
Proof.
  intros Lt H. apply write_atmost_no_result; assumption.
Qed.

Lemma relayout_undefined_witness :
  buffer_write_atmost zero_malloc wrapped_xyabc = Undef
  /\ buffer_write_atmost (fun _ => None) wrapped_wxyz = Undef.
Proof.
  split.
  - apply (relayout_undefined zero_malloc wrapped_xyabc).
    + by_computation.
    + right. reflexivity.
  - apply (relayout_undefined (fun _ => None) wrapped_wxyz).
    + by_computation.
    + left. reflexivity.
Defined.

(** *** Buffers a client can reach *)

Lemma wf_step r o r' :
  wf r -> buf_inline r = true -> typed_op o -> run_op o r = Ok r' ->
  wf r' /\ size r' = size r /\ buf_inline r' = true.
Proof.
  intros W I T.
  pose proof (rb_remain_eq r W) as RM. pose proof (rb_len_bounds r W) as L.
  destruct o as [data sz | out sz | sz | sep seplen | malloc];
    cbn [typed_op run_op] in *.
  - unfold buffer_add. rewrite Z.gtb_ltb.
    destruct (Z.ltb_spec (rb_remain r) sz).
    + intros [= <-]. split; [exact W | split; [reflexivity | exact I]].
    + destruct (memcpy_cases (buf r) (Z.land (tail r) (u32 (size r - 1))) data 0
                  (min sz (u32 (size r - Z.land (tail r) (u32 (size r - 1))))))
        as [-> | (b1 & -> & L1)]; [discriminate |]. cbn [bind].
      destruct (memcpy_cases b1 0 data
                  (min sz (u32 (size r - Z.land (tail r) (u32 (size r - 1)))))
                  (u32 (sz - min sz (u32 (size r - Z.land (tail r)
                                                      (u32 (size r - 1)))))))
        as [-> | (b2 & -> & L2)]; [discriminate |]. cbn [bind].
      intros [= <-]. split; [| split; [reflexivity | exact I]].
      apply wf_after_add; [exact W | destruct T; lia | congruence].
  - unfold buffer_remove.
    destruct (rb_isempty r =? 0); [| discriminate]. cbv zeta.
    destruct (memcpy _ _ _ _ _) as [d1 | |]; cbn [bind]; try discriminate.
    destruct (memcpy _ _ _ _ _) as [d2 | |]; cbn [bind]; try discriminate.
    intros [= <-]. fold (rb_len r). rewrite min_spec.
    split; [| split; [reflexivity | exact I]].
    apply wf_after_advance; [exact W | destruct T; lia].
  - rewrite buffer_drain_eq. cbn [fst]. intros [= <-].
    split; [| split; [reflexivity | exact I]].
    apply wf_after_advance; [exact W | destruct T; lia].
  - destruct (buffer_search r sep seplen); cbn [bind]; try discriminate.
    intros [= <-]. split; [exact W | split; [reflexivity | exact I]].
  - destruct (Z_lt_ge_dec (wpos r) (rpos r)) as [Lt | Ge].
    + rewrite (write_atmost_no_result malloc r Lt (or_intror I)). discriminate.
    + unfold buffer_write_atmost.
      destruct (Z.ltb_spec (wpos r) (rpos r)); [lia |].
      cbn [bind]. intros [= <-]. split; [exact W | split; [reflexivity | exact I]].
Qed.

Lemma run_ops_wf os : forall r0 r,
  wf r0 -> buf_inline r0 = true -> Forall typed_op os ->
  run_ops os r0 = Ok r ->
  wf r /\ size r = size r0 /\ buf_inline r = true.
Proof.
  induction os as [| o os IH]; intros r0 r W I T; cbn [run_ops].
  - intros [= <-]. split; [exact W | split; [reflexivity | exact I]].
  - inversion T as [| o' os' To Tos]; subst.
    destruct (run_op o r0) as [r1 | |] eqn:E; cbn [bind]; try discriminate.
    destruct (wf_step r0 o r1 W I To E) as (W1 & S1 & I1).
    intros R. destruct (IH r1 r W1 I1 Tos R) as (W2 & S2 & I2).
    split; [exact W2 | split; [congruence | exact I2]].
Qed.

(** X17.  Every buffer a client can reach is well-formed: starting from
    the buffer [buffer_new] returns for a request of at most [2^31] and
    going through any sequence of calls that return, the buffer is
    well-formed and has the capacity it was created with; its storage is
    still the one [buffer_new] set up, so that a call of
    [buffer_write_atmost] that finds the data wrapped has no defined
    result. *)
Theorem reachable_well_formed malloc sz r0 os r :
  0 <= sz <= 2 ^ 31 -> malloc_sized malloc ->
  buffer_new malloc sz = Ok (Some r0) ->
  Forall typed_op os -> run_ops os r0 = Ok r ->
  wf r /\ size r = size r0
  /\ (forall malloc', wpos r < rpos r -> buffer_write_atmost malloc' r = Undef).
Proof.
  intros R MS N T E.
  destruct (buffer_new_result malloc sz R MS) as (m & Hn & Hs).
  destruct (malloc m) as [block |] eqn:F.
  - destruct (Hs block eq_refl) as (N' & W0 & _).
    rewrite N' in N. injection N as <-.
    destruct (run_ops_wf os _ r W0 eq_refl T E) as (W & S & I).
    split; [exact W | split; [exact S |]].
    intros malloc' Lt. apply write_atmost_no_result; [exact Lt | right; exact I].
  - rewrite (Hn eq_refl) in N. discriminate.
Qed.

Lemma reachable_well_formed_witness :
  wf wrapped_xyabc
  /\ buffer_write_atmost zero_malloc wrapped_xyabc = Undef.
Proof.
  destruct (reachable_well_formed zero_malloc 8
              (mk_buffer 8 0 0 (zeros 8) true)
              [Append (bytes "......") 6; Remove (zeros 6) 6;
               Search (bytes "..") 2; Append (bytes "xyabc") 5]
              wrapped_xyabc) as (W & _ & U).
  - by_computation.
  - exact zero_malloc_sized.
  - reflexivity.
  - repeat constructor; unfold is_u32; by_computation.
  - by_computation.
  - split; [exact W |]. apply U. by_computation.
Defined.

(** X18.  The relayout does not rebase the cursors: after it, the byte the
    buffer presents at logical offset [j] is the one that was buffered at
    offset [rpos + j], for as long as [rpos + j] stays below [rb_len]; in
    particular the buffer no longer starts with its oldest byte. *)
Theorem relayout_misaligns malloc r temp r' p :
  wf r -> wpos r < rpos r ->
  malloc (size r) = Some temp -> Z.of_nat (length temp) = size r ->
  buf_inline r = false ->
  buffer_write_atmost malloc r = Ok (r', p) ->
  0 < rpos r
  /\ forall j, 0 <= j -> rpos r + j < rb_len r ->
       byte_at (contents r') j = byte_at (contents r) (rpos r + j).
Proof.
  intros W Lt M LT NI E.
  destruct (relayout_result malloc r temp W Lt M LT NI)
    as (r1 & E1 & RB & H & T & S & _ & W1).
  rewrite E1 in E. injection E as <- _.
  pose proof (wf_size_bounds r W) as SB.
  pose proof (rb_len_bounds r W) as L.
  pose proof (wf_buf r1 W1) as B1.
  assert (R : 0 <= rpos r < size r)
    by (rewrite rpos_mod by exact W; apply Z.mod_pos_bound; lia).
  assert (Wp : 0 <= wpos r < size r)
    by (rewrite wpos_mod by exact W; apply Z.mod_pos_bound; lia).
  split; [lia |].
  intros j J Lj.
  assert (L1 : rb_len r1 = rb_len r) by (unfold rb_len; rewrite H, T; reflexivity).
  rewrite byte_at_contents by (assumption || lia).
  rewrite H, S, mod_add_cases by lia. rewrite <- rpos_mod by exact W.
  destruct (Z.ltb_spec (rpos r + j) (size r)); [| lia].
  rewrite read_bytes_ok in RB by lia. injection RB as RB.
  rewrite <- RB. rewrite byte_at_slice by lia. reflexivity.
Qed.

Lemma relayout_misaligns_witness :
  contents wrapped_abcdefg = bytes "abcdefg"
  /\ buffer_write_atmost zero_malloc wrapped_abcdefg
     = Ok (mk_buffer 8 10 3 (bytes "abcdefg" ++ zeros 1) false, 0)
  /\ byte_at (contents (mk_buffer 8 10 3 (bytes "abcdefg" ++ zeros 1) false)) 0
     = byte_at (bytes "abcdefg") (3 + 0).
Proof.
  split; [reflexivity |]. split; [reflexivity |].
  change (bytes "abcdefg") with (contents wrapped_abcdefg) at 2.
  change 3 with (rpos wrapped_abcdefg) at 2.
  refine (proj2 (relayout_misaligns zero_malloc wrapped_abcdefg (zeros 8)
                   (mk_buffer 8 10 3 (bytes "abcdefg" ++ zeros 1) false) 0
                   _ _ _ _ _ _) 0 _ _).
  - wf_by_computation.
  - by_computation.
  - reflexivity.
  - reflexivity.
  - reflexivity.
  - reflexivity.
  - lia.
  - by_computation.
Defined.

(** *** Draining everything *)

(** X19.  Draining all buffered bytes makes any well-formed buffer empty
    wherever its cursors stand, and it can then take a full capacity of
    bytes: the append of [size] bytes succeeds and makes the buffer full,
    and the removal of [size] bytes copies out exactly these bytes and
    leaves the buffer empty again. *)
Theorem full_drain_resets r d out :
  wf r -> Z.of_nat (length d) = size r -> size r <= Z.of_nat (length out) ->
  exists r2 r3 r4 out',
    buffer_drain r (rb_len r) = (r2, to_int (rb_len r))
    /\ rb_isempty r2 = 1 /\ rb_remain r2 = size r
    /\ buffer_add r2 d (size r) = Ok (r3, 0)
    /\ rb_isfull r3 = 1
    /\ buffer_remove r3 out (size r) = Ok (r4, out', to_int (size r))
    /\ firstn (Z.to_nat (size r)) out' = d
    /\ rb_isempty r4 = 1.
Proof.
  intros W D O.
  pose proof (wf_size_bounds r W) as S. pose proof (rb_len_bounds r W) as L.
  pose proof (wf_after_advance r W (rb_len r) ltac:(lia)) as W2.
  pose proof (rb_len_advance_head r (rb_len r) ltac:(lia)) as L2.
  set (r2 := set_head r (u32 (head r + rb_len r))) in *.
  assert (S2 : size r2 = size r) by reflexivity.
  pose proof (rb_remain_eq r2 W2) as RM2.
  destruct (buffer_add_ok r2 W2 d (size r)) as (b & E3 & LB & HB); [lia | lia |].
  pose proof (wf_after_add r2 W2 b (size r) ltac:(lia) LB) as W3.
  pose proof (contents_after_add r2 W2 b d (size r) ltac:(lia) LB D HB) as C3.
  set (r3 := mk_buffer (size r2) (u32 (tail r2 + size r)) (head r2) b
                       (buf_inline r2)) in *.
  assert (L3 : rb_len r3 = size r).
  { unfold r3. rewrite rb_len_advance_tail; [lia | apply W2 | lia]. }
  assert (C2 : contents r2 = []).
  { pose proof (length_contents r2 W2) as LC.
    destruct (contents r2); [reflexivity | cbn in LC; lia]. }
  rewrite C2 in C3. cbn [app] in C3.
  assert (NE : head r3 <> tail r3).
  { intros E. unfold rb_len in L3. rewrite E, Z.sub_diag in L3.
    change (u32 0) with 0 in L3. lia. }
  destruct (buffer_remove_ok r3 W3 out (size r) NE) as (out' & E4 & LO & HO);
    [lia | lia |].
  rewrite L3, Z.min_id in *.
  pose proof (wf_after_advance r3 W3 (size r) ltac:(lia)) as W4.
  exists r2, r3, (set_head r3 (u32 (head r3 + size r))), out'.
  split.
  { rewrite buffer_drain_eq, Z.min_id. reflexivity. }
  split; [apply rb_isempty_len; [apply W2 | apply W2 | lia] |].
  split; [lia |].
  split; [exact E3 |].
  split.
  { unfold rb_isfull. fold (rb_len r3). rewrite L3.
    change (size r3) with (size r). rewrite Z.eqb_refl. reflexivity. }
  split; [exact E4 |].
  split.
  - rewrite <- C3. pose proof (length_contents r3 W3) as LC.
    apply byte_at_ext.
    + rewrite length_firstn. lia.
    + intros j J. rewrite length_firstn in J.
      rewrite !byte_at_nonneg by lia. rewrite nth_error_firstn.
      destruct (Nat.ltb_spec (Z.to_nat j) (Z.to_nat (size r))); [| lia].
      rewrite <- !byte_at_nonneg by lia. rewrite HO by lia.
      destruct (Z.ltb_spec j (size r)); [reflexivity | lia].
  - apply rb_isempty_len; [apply W4 | apply W4 |].
    rewrite rb_len_advance_head; lia.
Qed.

Lemma full_drain_resets_witness :
  exists r2 r3 r4 out',
    buffer_drain wrapped_abcdefg 7 = (r2, 7)
    /\ buffer_add r2 (bytes "12345678") 8 = Ok (r3, 0)
    /\ buffer_remove r3 (zeros 8) 8 = Ok (r4, out', 8)
    /\ firstn 8 out' = bytes "12345678".
Proof.
  destruct (full_drain_resets wrapped_abcdefg (bytes "12345678") (zeros 8))
    as (r2 & r3 & r4 & out' & E2 & _ & _ & E3 & _ & E4 & F & _).
  - wf_by_computation.
  - reflexivity.
  - by_computation.
  - exists r2, r3, r4, out'. repeat split; assumption.
Defined.
